(** * Energy-aware DIRAC site scheduling: queue ranking

    A shallow embedding of the three Python sources of the repository

    - [test.py]: the mock director with the weighted composite score
      (Variant B), module [MockDirector];
    - [Inheritance/GreenSiteDirector.py]: the [SiteDirector] subclass that
      orders queues by (PUE, CI) (Variant A), module [GreenSiteDirector];
    - [QuerySitesAgent.py]: the agent that lists queues and probes their
      computing elements, module [SiteInfoAgent];

    followed by the properties of the ranking engine proved on it.

    Conventions of the embedding.
    - Python floats and ints are exact rationals ([Q]); [round(x, n)] is
      rounding to [n] decimals, ties to even.
    - A [dict] whose iteration order matters ([queueDict]) is an association
      list in insertion order; a [dict] used as a plain map
      ([ParametersDict], the external metrics) is a [gmap].
    - A Python call either returns or raises ([Outcome]); DIRAC's return
      structures [S_OK]/[S_ERROR] are the type [Result].
    - Methods are computations in a state-and-exception monad over the
      object, the state of the [random] module and the trace of log lines
      and external calls. *)

From Stdlib Require Import ZArith QArith Qround Lia Lqa List Ascii String Permutation Sorted.
From Stdlib Require Import DecimalString.
From stdpp Require Import gmap strings list.
Import ListNotations.

(* ================================================================= *)
(** ** Python values and control *)

Inductive exn : Type :=
| KeyError (key : string)
| ZeroDivisionError
| Exception (msg : string).

Inductive Outcome (A : Type) : Type :=
| Return (a : A)
| Raise (e : exn).
Arguments Return {A} a.
Arguments Raise {A} e.

(** DIRAC return structure: [{"OK": True, "Value": v}] or
    [{"OK": False, "Message": msg}]. *)
Inductive Result (V : Type) : Type :=
| S_OK (Value : V)
| S_ERROR (Message : string).
Arguments S_OK {V} Value.
Arguments S_ERROR {V} Message.

(* ================================================================= *)
(** ** Numbers *)

Module PyNum.

Definition Qltb (x y : Q) : bool := negb (Qle_bool y x).

(** Nearest integer, ties to the even neighbour. *)
Definition round_half_even (x : Q) : Z :=
  let f := Qfloor x in
  match Qcompare (x - inject_Z f) (1 # 2) with
  | Lt => f
  | Gt => (f + 1)%Z
  | Eq => if Z.even f then f else (f + 1)%Z
  end.

(** [round(x, ndigits)] for [ndigits >= 1]. *)
Definition round (x : Q) (ndigits : positive) : Q :=
  round_half_even (x * inject_Z (Zpos (10 ^ ndigits))) # (10 ^ ndigits).

End PyNum.

(* ================================================================= *)
(** ** The [random] module *)

Module random.

(** The generator: an unbounded supply of raw words and a cursor. *)
Record State : Type := { bits : nat -> Z; cursor : nat }.

Definition next (g : State) : State :=
  {| bits := bits g; cursor := S (cursor g) |}.

Definition word (g : State) : Z := bits g (cursor g).

(** [random.random()]: a 53-bit fraction in [0, 1). *)
Definition random (g : State) : Q * State :=
  ((word g mod 2 ^ 53)%Z # (2 ^ 53), next g).

(** [random.uniform(a, b)] is [a + (b - a) * random()]. *)
Definition uniform (a b : Q) (g : State) : Q * State :=
  let (u, g') := random g in ((a + (b - a) * u)%Q, g').

(** [random.randint(a, b)]: an integer of [a .. b]. *)
Definition randint (a b : Z) (g : State) : Z * State :=
  ((a + word g mod (b - a + 1))%Z, next g).

End random.

(* ================================================================= *)
(** ** [sorted] and [dict] *)

Section PySorted.
Context {A K : Type}.
Variable key : A -> K.
Variable lt : K -> K -> bool.

(** [x] is the element that came first in the input: it goes in front of
    the first element that is not strictly below it. *)
Fixpoint insert_stable (x : A) (l : list A) : list A :=
  match l with
  | [] => [x]
  | y :: l' =>
      if lt (key y) (key x) then y :: insert_stable x l' else x :: l
  end.

(** The stable sort by [key], which compares keys with [<] only.
    Python's [sorted] is stable, and on keys in a strict weak order a
    stable sort has one possible result ([sort_stable_unique] below),
    so this is the list it returns. *)
Definition sort_stable (l : list A) : list A :=
  fold_right insert_stable [] l.

(** [a] may stand before [b]: the key of [b] is not below that of [a]. *)
Definition not_above (a b : A) : Prop := lt (key b) (key a) = false.

End PySorted.

(** [a] occurs in the list and [b] occurs somewhere after it. *)
Inductive precedes {A : Type} (a b : A) : list A -> Prop :=
| precedes_here l : In b l -> precedes a b (a :: l)
| precedes_later x l : precedes a b l -> precedes a b (x :: l).

Section PyDict.
Context {V : Type}.

(** [d[k] = v]: an existing key keeps its place, a new key goes last. *)
Fixpoint dict_set (k : string) (v : V) (d : list (string * V)) : list (string * V) :=
  match d with
  | [] => [(k, v)]
  | (k', v') :: d' =>
      if String.eqb k' k then (k', v) :: d' else (k', v') :: dict_set k v d'
  end.

(** [dict(items)]. *)
Definition dict (items : list (string * V)) : list (string * V) :=
  fold_left (fun d kv => dict_set (fst kv) (snd kv) d) items [].

(** [d.get(k)]. *)
Fixpoint dict_get (k : string) (d : list (string * V)) : option V :=
  match d with
  | [] => None
  | (k', v) :: d' => if String.eqb k' k then Some v else dict_get k d'
  end.

Definition keys (d : list (string * V)) : list string := map fst d.

(** Position of key [k] in iteration order. *)
Fixpoint position (k : string) (d : list (string * V)) : option nat :=
  match d with
  | [] => None
  | (k', _) :: d' =>
      if String.eqb k' k then Some 0%nat else option_map S (position k d')
  end.

(** [p] comes before [q] in iteration order. *)
Definition ranked_before (p q : string) (d : list (string * V)) : Prop :=
  match position p d, position q d with
  | Some i, Some j => (i < j)%nat
  | _, _ => False
  end.

End PyDict.

(** [sorted(items, key=key)]: the keys are computed first, in order; a key
    that raises aborts the call. *)
Section PySortedKey.
Context {A K : Type}.
Variable key : A -> Outcome K.
Variable lt : K -> K -> bool.

Fixpoint decorate (l : list A) : Outcome (list (K * A)) :=
  match l with
  | [] => Return []
  | x :: l' =>
      match key x with
      | Raise e => Raise e
      | Return k =>
          match decorate l' with
          | Raise e => Raise e
          | Return kl => Return ((k, x) :: kl)
          end
      end
  end.

Definition sorted (l : list A) : Outcome (list A) :=
  match decorate l with
  | Raise e => Raise e
  | Return kl => Return (map snd (sort_stable fst lt kl))
  end.

End PySortedKey.

(** The key of an element, [d] when computing it raises. *)
Definition key_or {A K : Type} (d : K) (key : A -> Outcome K) (a : A) : K :=
  match key a with
  | Return k => k
  | Raise _ => d
  end.

(* ================================================================= *)
(** ** Methods as computations *)

(** What a cycle does to the outside: log lines and calls to the
    collaborators, oldest first. *)
Inductive LogLine : Type :=
| Text (msg : string)
| ErrorMessage (msg detail : string)
| LoadedQueues (n : nat)
| Initialized (vo : string)
| SiteLine (site : string)
| CELine (ceName ceType : string)
| QueueLine (queue : string)
| ParamsLine (cpu maxJobs waitingLimit : option Q)
| LiveStatus (running waiting maxTotal : Z)
| CEMessage (ceName msg : string)
| CENotContacted (ceName : string) (e : exn)
| NoCEObject (queue : string)
| ExceptionLine (msg : string) (e : exn).

Inductive Level : Type := always | warn | error | exception.

Inductive Event : Type :=
| Log (lvl : Level) (line : LogLine)
| Call_loadModule (name : string)
| Call_getQueues (community : string)
| Call_getQueuesResolved
| Call_available (ce : string).

Record Sys (Self : Type) : Type :=
  { self : Self; rng : random.State; trace : list Event }.
Arguments self {Self} s.
Arguments rng {Self} s.
Arguments trace {Self} s.

(** A state with another generator and more trace. *)
Definition moved {Self} (s : Sys Self) (g : random.State) (evs : list Event) : Sys Self :=
  {| self := self s; rng := g; trace := trace s ++ evs |}.

Section Monad.
Context {Self : Type}.

Definition M (A : Type) : Type := Sys Self -> Outcome A * Sys Self.

Definition ret {A} (a : A) : M A := fun s => (Return a, s).

Definition bind {A B} (m : M A) (k : A -> M B) : M B :=
  fun s =>
    match m s with
    | (Return a, s') => k a s'
    | (Raise e, s') => (Raise e, s')
    end.

(** [try: body except Exception as e: handler e]. *)
Definition try_except {A} (body : M A) (handler : exn -> M A) : M A :=
  fun s =>
    match body s with
    | (Return a, s') => (Return a, s')
    | (Raise e, s') => handler e s'
    end.

Definition get_self : M Self := fun s => (Return (self s), s).

Definition set_self (x : Self) : M unit :=
  fun s => (Return tt, {| self := x; rng := rng s; trace := trace s |}).

Definition emit (ev : Event) : M unit :=
  fun s => (Return tt,
            {| self := self s; rng := rng s; trace := trace s ++ [ev] |}).

Definition log (lvl : Level) (line : LogLine) : M unit := emit (Log lvl line).

(** A call that draws on the generator. *)
Definition with_rng {A} (f : random.State -> A * random.State) : M A :=
  fun s =>
    let (a, g) := f (rng s) in
    (Return a, {| self := self s; rng := g; trace := trace s |}).

(** A call that may raise. *)
Definition lift {A} (o : Outcome A) : M A := fun s => (o, s).

End Monad.

Notation "'let!' x ':=' m 'in' k" := (bind m (fun x => k))
  (at level 10, x pattern, m at level 100, k at level 200).
Notation "m ';;' k" := (bind m (fun _ => k))
  (at level 100, k at level 200, right associativity).

(* ================================================================= *)
(** ** Queues and computing elements *)

Record CEInfo : Type :=
  { RunningJobs : Z; WaitingJobs : Z; MaxTotalJobs : Z }.

(** What [ce.available()] returns: an [S_OK] structure carrying
    ["CEInfoDict"], or an [S_ERROR] structure carrying ["Message"]. *)
Inductive AvailResult : Type :=
| AvailOK (CEInfoDict : CEInfo) (Value : Z)
| AvailError (Message : string).

(** A computing element: its answer may depend on the outside, which the
    generator stands for, and the call may raise. *)
Record CEHandle : Type :=
  { name : string;
    available : random.State -> Outcome AvailResult * random.State }.

(** The description of one queue, with the keys the sources read. A key
    that is read with [.get] or may be missing is an [option]. The values
    of ["ParametersDict"] that the ranking reads or writes are numbers. *)
Record QueueInfo : Type :=
  { Site : option string;
    CEName : option string;
    CEType : option string;
    QueueName : option string;
    CE : option CEHandle;
    ParametersDict : option (gmap string Q) }.

Definition with_params (qinfo : QueueInfo) (params : gmap string Q) : QueueInfo :=
  {| Site := Site qinfo; CEName := CEName qinfo; CEType := CEType qinfo;
     QueueName := QueueName qinfo; CE := CE qinfo;
     ParametersDict := Some params |}.

(** [d[k]] on a value that may be missing. *)
Definition item {A} (k : string) (o : option A) : Outcome A :=
  match o with
  | Some a => Return a
  | None => Raise (KeyError k)
  end.

(** The DIRAC collaborators of a cycle. [getQueues] is the site catalog
    (helper [Resources]), reached by import or through the module that
    [ObjectLoader] loads; [getQueuesResolved] builds the queue descriptions
    and may extend the cache of computing elements it is given; [getVO]
    is the community of the installation, empty when there is none;
    [options] are the options configured for the agent. *)
Definition SiteDict : Type := gmap string (list (string * string)).

Record getQueues_args : Type :=
  { community : option string;
    siteList : option (list string);
    ceList : option (list string);
    ceTypeList : option (list string);
    tags : option (list string) }.

Record getQueuesResolved_args : Type :=
  { siteDict : SiteDict;
    queueCECache : gmap string CEHandle;
    gridEnv : option string;
    setup : option string;
    workingDir : option string;
    checkPlatform : option bool;
    instantiateCEs : option bool }.

Record ResourcesModule : Type :=
  { getQueues : getQueues_args -> Outcome (Result SiteDict) }.

Record Dirac : Type :=
  { Resources : ResourcesModule;
    loadModule : string -> Outcome (Result ResourcesModule);
    getQueuesResolved :
      getQueuesResolved_args ->
      Outcome (Result (list (string * QueueInfo))) * gmap string CEHandle;
    getVO : string;
    options : gmap string string }.

(** [for x in l: body x]. *)
Fixpoint for_each {Self A} (body : A -> @M Self unit) (l : list A) : @M Self unit :=
  match l with
  | [] => ret tt
  | x :: l' => body x ;; for_each body l'
  end.

(** [ce.available()], recorded in the trace. *)
Definition call_available {Self} (ce : CEHandle) : @M Self AvailResult :=
  emit (Call_available (name ce)) ;;
  let! r := with_rng (available ce) in
  lift r.

(* ================================================================= *)
(** ** [test.py]: the mock director (Variant B) *)

Module MockDirector.

(** [class MockCE]: random job numbers, 300 slots. *)
Definition MockCE (name : string) : CEHandle :=
  {| name := name;
     available := fun g =>
       let (running, g1) := random.randint 10 200 g in
       let (waiting, g2) := random.randint 0 50 g1 in
       let max_total := 300%Z in
       (Return (AvailOK {| RunningJobs := running;
                           WaitingJobs := waiting;
                           MaxTotalJobs := max_total |}
                        (max_total - (running + waiting))%Z), g2) |}.

Record Self : Type := { queueDict : list (string * QueueInfo) }.

Definition _mockExternalMetrics : gmap string (gmap string Q) :=
  list_to_map
    [("CERN.ch", list_to_map [("CO2", 15.4%Q); ("efficiency", 0.92%Q)]);
     ("RAL.uk", list_to_map [("CO2", 33.1%Q); ("efficiency", 0.76%Q)]);
     ("IN2P3.fr", list_to_map [("CO2", 24.6%Q); ("efficiency", 0.81%Q)]);
     ("FNAL.us", list_to_map [("CO2", 40.0%Q); ("efficiency", 0.65%Q)])].

(** [s.lower()] on ASCII letters and [s.split('.')[0]]. *)
Definition lower_ascii (c : ascii) : ascii :=
  let n := nat_of_ascii c in
  if ((65 <=? n) && (n <=? 90))%nat then ascii_of_nat (n + 32) else c.

Fixpoint lower (s : string) : string :=
  match s with
  | EmptyString => EmptyString
  | String c s' => String (lower_ascii c) (lower s')
  end.

Fixpoint before_dot (s : string) : string :=
  match s with
  | EmptyString => EmptyString
  | String c s' => if Ascii.eqb c "." then EmptyString else String c (before_dot s')
  end.

Definition set_queue (qname : string) (qinfo : QueueInfo) : @M Self unit :=
  let! me := get_self in
  set_self {| queueDict := dict_set qname qinfo (queueDict me) |}.

Definition _buildMockQueueDict : @M Self unit :=
  let sites := ["CERN.ch"; "RAL.uk"; "IN2P3.fr"; "FNAL.us"] in
  for_each (fun site =>
    for_each (fun ce_num =>
      let ce_name := ("ce" ++ ce_num ++ "." ++ before_dot (lower site))%string in
      let ce := MockCE ce_name in
      for_each (fun q =>
        let qname := (site ++ "-" ++ ce_name ++ "-" ++ q)%string in
        set_queue qname
          {| Site := Some site;
             CEName := Some ce_name;
             CEType := None;
             QueueName := None;
             CE := Some ce;
             ParametersDict :=
               Some (list_to_map
                       [("CPUTime", if String.eqb q "short" then 3600%Q else 86400%Q);
                        ("MaxTotalJobs", 300%Q);
                        ("MaxWaitingJobs", 100%Q)]) |})
        ["short"; "long"])
      ["1"; "2"])
    sites.

(** [a / b] on numbers. *)
Definition true_div (a b : Q) : Outcome Q :=
  if Qeq_bool b 0 then Raise ZeroDivisionError else Return (a / b)%Q.

(** The body of the scoring loop for one queue: the queue with
    ["CompositeScore"] and ["LoadFactor"] written into its parameters. *)
Definition score_queue (external_data : gmap string (gmap string Q))
    (qinfo : QueueInfo) : @M Self QueueInfo :=
  let! site := lift (item "Site" (Site qinfo)) in
  let! ce := lift (item "CE" (CE qinfo)) in
  let! params := lift (item "ParametersDict" (ParametersDict qinfo)) in
  let! cpu_time := lift (item "CPUTime" (params !! "CPUTime")) in
  let co2 := default 100.0%Q (default ∅ (external_data !! site) !! "CO2") in
  let efficiency := default 0.5%Q (default ∅ (external_data !! site) !! "efficiency") in
  let! res := call_available ce in
  let! ce_stats :=
    lift (match res with
          | AvailOK info _ => Return info
          | AvailError _ => Raise (KeyError "CEInfoDict")
          end) in
  let running := RunningJobs ce_stats in
  let waiting := WaitingJobs ce_stats in
  let max_total := MaxTotalJobs ce_stats in
  let! load_factor := lift (true_div (inject_Z (running + waiting)) (inject_Z max_total)) in
  let score :=
    ((co2 * 0.5) + ((cpu_time / 3600.0) * 0.3) + (load_factor * 100 * 0.2))%Q in
  ret (with_params qinfo
         (<["LoadFactor" := PyNum.round load_factor 2]>
            (<["CompositeScore" := PyNum.round score 2]> params))).

Definition score_key (kv : string * QueueInfo) : Outcome Q :=
  match item "ParametersDict" (ParametersDict (snd kv)) with
  | Raise e => Raise e
  | Return params => item "CompositeScore" (params !! "CompositeScore")
  end.

(** The body of the loop: the queue is changed in place. *)
Definition score_and_store (external_data : gmap string (gmap string Q))
    (kv : string * QueueInfo) : @M Self unit :=
  let! qinfo' := score_queue external_data (snd kv) in
  set_queue (fst kv) qinfo'.

Definition _computeQueueScores (external_data : gmap string (gmap string Q))
    : @M Self unit :=
  let! me := get_self in
  for_each (score_and_store external_data) (queueDict me) ;;
  let! me := get_self in
  let! ranked := lift (sorted score_key PyNum.Qltb (queueDict me)) in
  set_self {| queueDict := dict ranked |}.

(** *** The score in the words of the specification *)

Definition spec_load_factor (running waiting maxTotal : Z) : Q :=
  (inject_Z (running + waiting) / inject_Z maxTotal)%Q.

Definition spec_score (CO2 CPUTime loadFactor : Q) : Q :=
  (CO2 * 0.5 + (CPUTime / 3600.0) * 0.3 + (loadFactor * 100) * 0.2)%Q.

(** The CO2 value of a site: the published one, 100.0 without one. *)
Definition co2_of (external_data : gmap string (gmap string Q)) (site : string) : Q :=
  default 100.0%Q (default ∅ (external_data !! site) !! "CO2").

Definition load_of (info : CEInfo) : Q :=
  spec_load_factor (RunningJobs info) (WaitingJobs info) (MaxTotalJobs info).

(** The unrounded score of a queue whose CE reported [info]. *)
Definition exact_score (external_data : gmap string (gmap string Q))
    (qinfo : QueueInfo) (info : CEInfo) : Q :=
  spec_score (co2_of external_data (default ""%string (Site qinfo)))
             (default 0%Q (default ∅ (ParametersDict qinfo) !! "CPUTime"))
             (load_of info).

(** The queue after scoring, when its CE reported [info]. *)
Definition scored (external_data : gmap string (gmap string Q))
    (qinfo : QueueInfo) (info : CEInfo) : QueueInfo :=
  with_params qinfo
    (<["LoadFactor" := PyNum.round (load_of info) 2]>
       (<["CompositeScore" := PyNum.round (exact_score external_data qinfo info) 2]>
          (default ∅ (ParametersDict qinfo)))).

(** The dictionary after the loop, when the CE of queue [k] reported
    [snap k]. *)
Definition scored_items (external_data : gmap string (gmap string Q))
    (snap : list (string * CEInfo)) (items : list (string * QueueInfo))
    : list (string * QueueInfo) :=
  map (fun kv =>
         match dict_get (fst kv) snap with
         | Some info => (fst kv, scored external_data (snd kv) info)
         | None => kv
         end) items.

(** The dictionary after the sort. *)
Definition ranking (external_data : gmap string (gmap string Q))
    (snap : list (string * CEInfo)) (items : list (string * QueueInfo))
    : list (string * QueueInfo) :=
  sort_stable (key_or 0%Q score_key) PyNum.Qltb
              (scored_items external_data snap items).

(** [info] is an answer of the CE of the queue. *)
Definition reported (qinfo : QueueInfo) (info : CEInfo) : Prop :=
  exists ce v g g',
    CE qinfo = Some ce /\ available ce g = (Return (AvailOK info v), g') /\
    MaxTotalJobs info <> 0%Z.

(** A queue the loop can score: the keys it reads are there and its CE
    always reports a positive number of slots. *)
Definition scorable (qinfo : QueueInfo) : Prop :=
  exists site ce params cpu,
    Site qinfo = Some site /\ CE qinfo = Some ce /\
    ParametersDict qinfo = Some params /\ params !! "CPUTime" = Some cpu /\
    forall g, exists info v g',
      available ce g = (Return (AvailOK info v), g') /\
      (0 < MaxTotalJobs info)%Z.

(** A computing element that always reports the same numbers. *)
Definition FixedCE (name : string) (running waiting max_total : Z) : CEHandle :=
  {| name := name;
     available := fun g =>
       (Return (AvailOK {| RunningJobs := running;
                           WaitingJobs := waiting;
                           MaxTotalJobs := max_total |}
                        (max_total - (running + waiting))%Z), g) |}.

(** *** [run] *)

(** [__init__]: the director starts without queues. *)
Definition __init__ : Self := {| queueDict := [] |}.

(** What [run] writes to standard output: the banner, then one line per
    queue with the six values of its format string. *)
Inductive Printed : Type :=
| Banner
| Row (qname site ce : string) (cpu load score : Q).

(** The values of the line of one queue, read in the order of the
    source. *)
Definition row (kv : string * QueueInfo) : @M Self Printed :=
  let qname := fst kv in
  let qinfo := snd kv in
  let! site := lift (item "Site" (Site qinfo)) in
  let! ce := lift (item "CEName" (CEName qinfo)) in
  let! params := lift (item "ParametersDict" (ParametersDict qinfo)) in
  let! cpu := lift (item "CPUTime" (params !! "CPUTime")) in
  let! score := lift (item "CompositeScore" (params !! "CompositeScore")) in
  let! load := lift (item "LoadFactor" (params !! "LoadFactor")) in
  ret (Row qname site ce cpu load score).

(** The printing loop: the lines printed before an exception stay
    printed. *)
Fixpoint print_rows (items : list (string * QueueInfo)) (s : Sys Self)
    : Outcome unit * Sys Self * list Printed :=
  match items with
  | [] => (Return tt, s, [])
  | kv :: rest =>
      match row kv s with
      | (Raise e, s') => (Raise e, s', [])
      | (Return line, s') =>
          match print_rows rest s' with
          | (o, s'', out) => (o, s'', line :: out)
          end
      end
  end.

(** [run]: the outcome, the director and what was printed. *)
Definition run (s : Sys Self) : Outcome unit * Sys Self * list Printed :=
  match (_buildMockQueueDict ;;
         let ext_metrics := _mockExternalMetrics in
         _computeQueueScores ext_metrics) s with
  | (Raise e, s') => (Raise e, s', [])
  | (Return _, s') =>
      match print_rows (queueDict (self s')) s' with
      | (o, s'', out) => (o, s'', Banner :: out)
      end
  end.

(** The score a line shows. *)
Definition row_score (line : Printed) : option Q :=
  match line with
  | Banner => None
  | Row _ _ _ _ _ score => Some score
  end.

(** A queue as [_buildMockQueueDict] makes them: it has the keys that
    scoring and printing read, and a mock computing element. *)
Definition mock_queue (qinfo : QueueInfo) : Prop :=
  exists site ce_name params cpu,
    Site qinfo = Some site /\ CEName qinfo = Some ce_name /\
    CE qinfo = Some (MockCE ce_name) /\
    ParametersDict qinfo = Some params /\ params !! "CPUTime" = Some cpu.

(** The line of a queue shows the values stored for it. *)
Definition shows (kv : string * QueueInfo) (line : Printed) : Prop :=
  exists site ce params cpu load score,
    Site (snd kv) = Some site /\ CEName (snd kv) = Some ce /\
    ParametersDict (snd kv) = Some params /\
    params !! "CPUTime" = Some cpu /\
    params !! "LoadFactor" = Some load /\
    params !! "CompositeScore" = Some score /\
    line = Row (fst kv) site ce cpu load score.

End MockDirector.

(* ================================================================= *)
(** ** [Inheritance/GreenSiteDirector.py]: ordering by PUE and CI (Variant A) *)

Module GreenSiteDirector.

(** The attributes of the director that [_buildQueueDict] uses; an
    attribute that may not be set yet is an [option]. *)
Record Self : Type :=
  { resourcesModule : option ResourcesModule;
    vo : string;
    self_gridEnv : option string;
    workingDirectory : option string;
    self_checkPlatform : bool;
    self_queueCECache : gmap string CEHandle;
    queueDict : list (string * QueueInfo) }.

Definition with_resourcesModule (me : Self) (rm : ResourcesModule) : Self :=
  {| resourcesModule := Some rm; vo := vo me;
     self_gridEnv := self_gridEnv me;
     workingDirectory := workingDirectory me;
     self_checkPlatform := self_checkPlatform me;
     self_queueCECache := self_queueCECache me;
     queueDict := queueDict me |}.

Definition with_queueCECache (me : Self) (c : gmap string CEHandle) : Self :=
  {| resourcesModule := resourcesModule me; vo := vo me;
     self_gridEnv := self_gridEnv me;
     workingDirectory := workingDirectory me;
     self_checkPlatform := self_checkPlatform me;
     self_queueCECache := c;
     queueDict := queueDict me |}.

Definition with_queueDict (me : Self) (d : list (string * QueueInfo)) : Self :=
  {| resourcesModule := resourcesModule me; vo := vo me;
     self_gridEnv := self_gridEnv me;
     workingDirectory := workingDirectory me;
     self_checkPlatform := self_checkPlatform me;
     self_queueCECache := self_queueCECache me;
     queueDict := d |}.

Definition set_resourcesModule (rm : ResourcesModule) : @M Self unit :=
  let! me := get_self in set_self (with_resourcesModule me rm).

Definition set_queueCECache (c : gmap string CEHandle) : @M Self unit :=
  let! me := get_self in set_self (with_queueCECache me c).

Definition set_queueDict (d : list (string * QueueInfo)) : @M Self unit :=
  let! me := get_self in set_self (with_queueDict me d).

Definition set_queue (qname : string) (qinfo : QueueInfo) : @M Self unit :=
  let! me := get_self in
  set_queueDict (dict_set qname qinfo (queueDict me)).

(** Step 3 on one parameter mapping: a missing ["PUE"], then a missing
    ["CI"], is drawn at random; a value that is there is kept. *)
Definition annotate_params (params : gmap string Q) : @M Self (gmap string Q) :=
  let! params :=
    match params !! "PUE" with
    | Some _ => ret params
    | None =>
        let! x := with_rng (random.uniform 1.0 2.0) in
        ret (<["PUE" := PyNum.round x 2]> params)
    end in
  match params !! "CI" with
  | Some _ => ret params
  | None =>
      let! x := with_rng (random.uniform 100.0 500.0) in
      ret (<["CI" := PyNum.round x 1]> params)
  end.

(** Step 3 on one queue. [qdict.get("ParametersDict", {})] is the
    mapping of the queue when it has one, and it is changed in place;
    otherwise it is a fresh mapping that nothing else refers to. *)
Definition annotate_queue (kv : string * QueueInfo) : @M Self unit :=
  let qdict := snd kv in
  let params := default ∅ (ParametersDict qdict) in
  let! params' := annotate_params params in
  match ParametersDict qdict with
  | Some _ => set_queue (fst kv) (with_params qdict params')
  | None => ret tt
  end.

(** The sort key of step 4 and the order of Python tuples. *)
Definition pue_ci_key (item_ : string * QueueInfo) : Outcome (Q * Q) :=
  match item "ParametersDict" (ParametersDict (snd item_)) with
  | Raise e => Raise e
  | Return params =>
      match item "PUE" (params !! "PUE") with
      | Raise e => Raise e
      | Return pue =>
          match item "ParametersDict" (ParametersDict (snd item_)) with
          | Raise e => Raise e
          | Return params' =>
              match item "CI" (params' !! "CI") with
              | Raise e => Raise e
              | Return ci => Return (pue, ci)
              end
          end
      end
  end.

Definition tuple_lt (a b : Q * Q) : bool :=
  if Qeq_bool (fst a) (fst b) then PyNum.Qltb (snd a) (snd b)
  else PyNum.Qltb (fst a) (fst b).

Definition call_loadModule (dirac : Dirac) (name : string)
    : @M Self (Result ResourcesModule) :=
  emit (Call_loadModule name) ;; lift (loadModule dirac name).

Definition call_getQueues (rm : ResourcesModule) (args : getQueues_args)
    : @M Self (Result SiteDict) :=
  emit (Call_getQueues (default "" (community args))) ;; lift (getQueues rm args).

Definition call_getQueuesResolved (dirac : Dirac) (args : getQueuesResolved_args)
    : @M Self (Result (list (string * QueueInfo))) :=
  emit Call_getQueuesResolved ;;
  let (r, cache) := getQueuesResolved dirac args in
  set_queueCECache cache ;;
  lift r.

(** The body of the [try] block. *)
Definition build_body (dirac : Dirac) (gridEnv workingDir : string)
    (siteNames ces ceTypes tags : option (list string)) : @M Self (Result unit) :=
  let! me := get_self in
  let! rm :=
    lift (match resourcesModule me with
          | Some rm => Return rm
          | None => Raise (Exception "AttributeError")
          end) in
  let! result :=
    call_getQueues rm {| community := Some (vo me); siteList := siteNames;
                         ceList := ces; ceTypeList := ceTypes; tags := tags |} in
  match result with
  | S_ERROR msg =>
      log error (ErrorMessage "Failed to get queues:" msg) ;;
      ret (S_ERROR msg)
  | S_OK value =>
      let! result :=
        call_getQueuesResolved dirac
          {| siteDict := value;
             queueCECache := self_queueCECache me;
             gridEnv := Some gridEnv;
             setup := Some "unknown"%string;
             workingDir := Some workingDir;
             checkPlatform := Some (self_checkPlatform me);
             instantiateCEs := Some true |} in
      match result with
      | S_ERROR msg =>
          log error (ErrorMessage "Failed to resolve queues:" msg) ;;
          ret (S_ERROR msg)
      | S_OK value =>
          set_queueDict value ;;
          for_each annotate_queue value ;;
          let! me := get_self in
          let! ranked := lift (sorted pue_ci_key tuple_lt (queueDict me)) in
          set_queueDict (dict ranked) ;;
          log always (LoadedQueues (length (dict ranked))) ;;
          ret (S_OK tt)
      end
  end.

Definition _buildQueueDict (dirac : Dirac)
    (siteNames ces ceTypes tags : option (list string)) : @M Self (Result unit) :=
  log always (Text "Building queue dictionary (no VO argument)...") ;;
  let! me := get_self in
  let! failed :=
    match resourcesModule me with
    | Some _ => ret None
    | None =>
        log error (Text "resourcesModule missing, loading manually...") ;;
        let! res := call_loadModule dirac "ConfigurationSystem.Client.Helpers.Resources" in
        match res with
        | S_OK value => set_resourcesModule value ;; ret None
        | S_ERROR msg =>
            log error (ErrorMessage "Cannot load Resources module:" msg) ;;
            ret (Some msg)
        end
    end in
  match failed with
  | Some msg => ret (S_ERROR msg)
  | None =>
      let! me := get_self in
      let gridEnv := default ""%string (self_gridEnv me) in
      let workingDir := default "/tmp"%string (workingDirectory me) in
      try_except
        (build_body dirac gridEnv workingDir siteNames ces ceTypes tags)
        (fun e =>
           log exception (ExceptionLine "Exception while building queue dictionary:" e) ;;
           ret (S_OK tt))
  end.

(** *** The parts of a run *)

(** The state in which the [try] block starts. *)
Definition started (s : Sys Self) : Sys Self :=
  {| self := self s; rng := rng s;
     trace := trace s ++
              [Log always (Text "Building queue dictionary (no VO argument)...")] |}.

(** The arguments of the two calls. *)
Definition catalog_args (siteNames ces ceTypes tags : option (list string))
    (me : Self) : getQueues_args :=
  {| community := Some (vo me); siteList := siteNames; ceList := ces;
     ceTypeList := ceTypes; tags := tags |}.

Definition resolve_args (me : Self) (value : SiteDict) : getQueuesResolved_args :=
  {| siteDict := value;
     queueCECache := self_queueCECache me;
     gridEnv := Some (default ""%string (self_gridEnv me));
     setup := Some "unknown"%string;
     workingDir := Some (default "/tmp"%string (workingDirectory me));
     checkPlatform := Some (self_checkPlatform me);
     instantiateCEs := Some true |}.

(** The [try] block of a call on [s]. *)
Definition body (dirac : Dirac) (siteNames ces ceTypes tags : option (list string))
    (s : Sys Self) : Outcome (Result unit) * Sys Self :=
  build_body dirac (default ""%string (self_gridEnv (self s)))
             (default "/tmp"%string (workingDirectory (self s)))
             siteNames ces ceTypes tags (started s).

(** The line the handler logs. *)
Definition swallowed (e : exn) : Event :=
  Log exception (ExceptionLine "Exception while building queue dictionary:" e).

(** *** Annotation in the words of the specification *)

(** A field that is there is kept; a missing one gets a value of
    [lo .. hi]. *)
Definition synthesized (lo hi : Q) (old new : option Q) : Prop :=
  match old with
  | Some v => new = Some v
  | None => exists v, new = Some v /\ (lo <= v)%Q /\ (v <= hi)%Q
  end.

Definition annotates (params params' : gmap string Q) : Prop :=
  synthesized 1.0 2.0 (params !! "PUE") (params' !! "PUE") /\
  synthesized 100.0 500.0 (params !! "CI") (params' !! "CI") /\
  forall key, key <> "PUE"%string -> key <> "CI"%string ->
              params' !! key = params !! key.

(** A queue before and after step 3. *)
Definition annotated (kv kv' : string * QueueInfo) : Prop :=
  fst kv' = fst kv /\
  match ParametersDict (snd kv) with
  | Some params =>
      exists params', snd kv' = with_params (snd kv) params' /\ annotates params params'
  | None => snd kv' = snd kv
  end.

(** *** [__init__], [initialize] and [execute] *)

(** What the constructor of the parent class has left: an attribute that
    it did not set is [None]. *)
Record Inherited : Type :=
  { inherited_gridEnv : option string;
    inherited_workingDirectory : option string;
    inherited_vo : option string;
    inherited_checkPlatform : option bool;
    inherited_queueCECache : option (gmap string CEHandle);
    inherited_resourcesModule : option ResourcesModule;
    inherited_queueDict : list (string * QueueInfo) }.

(** The [getattr] defaults of the constructor. *)
Definition safe_defaults (parent : Inherited) : Self :=
  {| resourcesModule := inherited_resourcesModule parent;
     vo := default ""%string (inherited_vo parent);
     self_gridEnv := Some (default ""%string (inherited_gridEnv parent));
     workingDirectory := Some (default "/tmp"%string (inherited_workingDirectory parent));
     self_checkPlatform := default false (inherited_checkPlatform parent);
     self_queueCECache := default ∅ (inherited_queueCECache parent);
     queueDict := inherited_queueDict parent |}.

(** The constructor, after the one of the parent class. *)
Definition __init__ (dirac : Dirac) (parent : Inherited) : @M Self unit :=
  log always (Text "🌱 [GreenSiteDirector] Constructor called — base class initialized.") ;;
  set_self (safe_defaults parent) ;;
  let! me := get_self in
  match resourcesModule me with
  | Some _ => ret tt
  | None =>
      let! res := call_loadModule dirac "ConfigurationSystem.Client.Helpers.Resources" in
      match res with
      | S_OK value =>
          set_resourcesModule value ;;
          log always (Text "✅ [GreenSiteDirector] Loaded resources module manually.")
      | S_ERROR msg =>
          log error (ErrorMessage "❌ [GreenSiteDirector] Could not load resources module:" msg)
      end
  end.

(** [initialize]; [super_initialize] is the method of the parent class. *)
Definition initialize (super_initialize : @M Self (Result unit)) : @M Self (Result unit) :=
  log always (Text "🟢 Initializing GreenSiteDirector: energy-aware pilot scheduling activated 🌿") ;;
  let! result := super_initialize in
  match result with
  | S_ERROR msg => log error (ErrorMessage "Failed during parent initialization:" msg)
  | S_OK _ => log always (Text "✅ [GreenSiteDirector] Parent initialization complete.")
  end ;;
  ret result.

(** [f"{i:02d}"] and [f"{s:<25}"], on ASCII strings. *)
Definition zero_padded (width i : nat) : string :=
  let digits := NilZero.string_of_uint (Nat.to_uint i) in
  (string_of_list_ascii (repeat "0"%char (width - String.length digits)) ++ digits)%string.

Definition left_aligned (width : nat) (s : string) : string :=
  (s ++ string_of_list_ascii (repeat " "%char (width - String.length s)))%string.

(** The line that [execute] shows for the [i]-th queue; [show] is [str]
    on numbers. *)
Definition queue_line (show : Q -> string) (i : nat) (qdict : QueueInfo) : string :=
  let site := default "UnknownSite"%string (Site qdict) in
  let ce := default "UnknownCE"%string (CEName qdict) in
  let pue := from_option show "?"%string (default ∅ (ParametersDict qdict) !! "PUE") in
  let ci := from_option show "?"%string (default ∅ (ParametersDict qdict) !! "CI") in
  ("   " ++ zero_padded 2 i ++ ". " ++ left_aligned 25 site ++ " | CE: " ++
   left_aligned 25 ce ++ " | PUE: " ++ pue ++ " | CI: " ++ ci)%string.

(** [for i, (queue, qdict) in enumerate(items, i)]: one line per queue. *)
Fixpoint show_queues (show : Q -> string) (i : nat) (items : list (string * QueueInfo))
    : @M Self unit :=
  match items with
  | [] => ret tt
  | kv :: rest =>
      log always (Text (queue_line show i (snd kv))) ;;
      show_queues show (S i) rest
  end.

(** [execute]; [super_execute] is the method of the parent class. *)
Definition execute (show : Q -> string) (super_execute : @M Self (Result unit))
    : @M Self (Result unit) :=
  log always (Text "🌿 [GreenSiteDirector] Starting execution cycle...") ;;
  let! me := get_self in
  match queueDict me with
  | [] => log warn (Text "No queue dictionary loaded — skipping submission cycle.")
  | _ :: _ =>
      log always (Text "📋 [GreenSiteDirector] Current queue order (by PUE / CI):") ;;
      show_queues show 1 (queueDict me)
  end ;;
  let! result := super_execute in
  match result with
  | S_ERROR msg => log error (ErrorMessage "🚫 [GreenSiteDirector] Error in parent execute:" msg)
  | S_OK _ => log always (Text "🌱 [GreenSiteDirector] Execution cycle completed successfully.")
  end ;;
  ret result.

(** The lines of the queue display, numbered from [i]. *)
Fixpoint queue_lines (show : Q -> string) (i : nat) (items : list (string * QueueInfo))
    : list Event :=
  match items with
  | [] => []
  | kv :: rest =>
      Log always (Text (queue_line show i (snd kv))) :: queue_lines show (S i) rest
  end.

(** What [execute] logs before it calls the parent class. *)
Definition display (show : Q -> string) (items : list (string * QueueInfo)) : list Event :=
  Log always (Text "🌿 [GreenSiteDirector] Starting execution cycle...") ::
  match items with
  | [] => [Log warn (Text "No queue dictionary loaded — skipping submission cycle.")]
  | _ :: _ => Log always (Text "📋 [GreenSiteDirector] Current queue order (by PUE / CI):") :: queue_lines show 1 items
  end.

End GreenSiteDirector.

(* ================================================================= *)
(** ** [QuerySitesAgent.py]: listing queues and probing their CEs *)

Module SiteInfoAgent.

(** [__init__] sets [vo] to [None] and both mappings to [{}]. *)
Record Self : Type :=
  { vo : option string;
    queueDict : list (string * QueueInfo);
    self_queueCECache : gmap string CEHandle }.

Definition __init__ : Self :=
  {| vo := None; queueDict := []; self_queueCECache := ∅ |}.

Definition with_vo (me : Self) (v : string) : Self :=
  {| vo := Some v; queueDict := queueDict me;
     self_queueCECache := self_queueCECache me |}.

Definition with_queueCECache (me : Self) (c : gmap string CEHandle) : Self :=
  {| vo := vo me; queueDict := queueDict me; self_queueCECache := c |}.

Definition with_queueDict (me : Self) (d : list (string * QueueInfo)) : Self :=
  {| vo := vo me; queueDict := d; self_queueCECache := self_queueCECache me |}.

Definition set_vo (v : string) : @M Self unit :=
  let! me := get_self in set_self (with_vo me v).

Definition set_queueCECache (c : gmap string CEHandle) : @M Self unit :=
  let! me := get_self in set_self (with_queueCECache me c).

Definition set_queueDict (d : list (string * QueueInfo)) : @M Self unit :=
  let! me := get_self in set_self (with_queueDict me d).

(** [a or b] on strings. *)
Definition py_or (a b : string) : string :=
  if String.eqb a "" then b else a.

(** [AgentModule.am_getOption] of DIRAC: the value configured for the
    option when there is one, the default otherwise. *)
Definition am_getOption (dirac : Dirac) (optionName defaultValue : string) : string :=
  default defaultValue (options dirac !! optionName).

Definition initialize (dirac : Dirac) : @M Self (Result unit) :=
  let v := am_getOption dirac "VO" (py_or (getVO dirac) "biomed") in
  set_vo v ;;
  if String.eqb v "" then
    ret (S_ERROR "No VO specified or found in CSGlobals")
  else
    log always (Initialized v) ;;
    ret (S_OK tt).

Definition call_getQueues (dirac : Dirac) (args : getQueues_args)
    : @M Self (Result SiteDict) :=
  emit (Call_getQueues (default "" (community args))) ;;
  lift (getQueues (Resources dirac) args).

Definition call_getQueuesResolved (dirac : Dirac) (args : getQueuesResolved_args)
    : @M Self (Result (list (string * QueueInfo))) :=
  emit Call_getQueuesResolved ;;
  let (r, cache) := getQueuesResolved dirac args in
  set_queueCECache cache ;;
  lift r.

(** Step 4 for one queue: the live status of its CE, or a warning. *)
Definition probe (ceName queue : string) (ce : option CEHandle) : @M Self unit :=
  match ce with
  | Some ce =>
      try_except
        (let! result := call_available ce in
         match result with
         | AvailOK ceInfo _ =>
             log always (LiveStatus (RunningJobs ceInfo) (WaitingJobs ceInfo)
                                    (MaxTotalJobs ceInfo))
         | AvailError msg => log warn (CEMessage ceName msg)
         end)
        (fun e => log warn (CENotContacted ceName e))
  | None => log warn (NoCEObject queue)
  end.

(** The body of the loop of step 3. *)
Definition report_queue (kv : string * QueueInfo) : @M Self unit :=
  let qdict := snd kv in
  let site := default "UnknownSite"%string (Site qdict) in
  let ceName := default "UnknownCE"%string (CEName qdict) in
  let ceType := default "UnknownType"%string (CEType qdict) in
  let queue := default "UnknownQueue"%string (QueueName qdict) in
  let params := default ∅ (ParametersDict qdict) in
  let cpu := params !! "CPUTime" in
  let maxJobs := params !! "MaxTotalJobs" in
  let waitingLimit := params !! "MaxWaitingJobs" in
  log always (SiteLine site) ;;
  log always (CELine ceName ceType) ;;
  log always (QueueLine queue) ;;
  log always (ParamsLine cpu maxJobs waitingLimit) ;;
  probe ceName queue (CE qdict).

Definition execute (dirac : Dirac) : @M Self (Result unit) :=
  log always (Text "=== [SiteInfoAgent] Cycle started ===") ;;
  let! me := get_self in
  let! result :=
    call_getQueues dirac {| community := vo me; siteList := None; ceList := None;
                            ceTypeList := None; tags := None |} in
  match result with
  | S_ERROR msg =>
      log error (ErrorMessage "Failed to get queues from CS" msg) ;;
      ret (S_ERROR msg)
  | S_OK siteDict =>
      if bool_decide (siteDict = ∅) then
        log warn (Text "No sites or queues found for this VO") ;;
        ret (S_OK tt)
      else
        set_queueCECache ∅ ;;
        let! resolved :=
          call_getQueuesResolved dirac
            {| siteDict := siteDict; queueCECache := ∅; gridEnv := None;
               setup := None; workingDir := None; checkPlatform := None;
               instantiateCEs := Some true |} in
        match resolved with
        | S_ERROR msg =>
            log error (ErrorMessage "Failed to resolve CE objects" msg) ;;
            ret (S_ERROR msg)
        | S_OK value =>
            set_queueDict value ;;
            for_each report_queue value ;;
            log always (Text "=== [SiteInfoAgent] Cycle complete ===") ;;
            ret (S_OK tt)
        end
  end.

(** *** The report of a cycle *)

(** The four lines that describe a queue. *)
Definition header_lines (kv : string * QueueInfo) : list Event :=
  let qdict := snd kv in
  let params := default ∅ (ParametersDict qdict) in
  [Log always (SiteLine (default "UnknownSite"%string (Site qdict)));
   Log always (CELine (default "UnknownCE"%string (CEName qdict))
                      (default "UnknownType"%string (CEType qdict)));
   Log always (QueueLine (default "UnknownQueue"%string (QueueName qdict)));
   Log always (ParamsLine (params !! "CPUTime") (params !! "MaxTotalJobs")
                          (params !! "MaxWaitingJobs"))].

(** What is logged after the call to a CE, by its answer. *)
Definition answer_line (ceName : string) (answer : Outcome AvailResult) : Event :=
  match answer with
  | Return (AvailOK ceInfo _) =>
      Log always (LiveStatus (RunningJobs ceInfo) (WaitingJobs ceInfo)
                             (MaxTotalJobs ceInfo))
  | Return (AvailError msg) => Log warn (CEMessage ceName msg)
  | Raise e => Log warn (CENotContacted ceName e)
  end.

(** Everything one queue adds to the trace, and the generator after it. *)
Definition queue_lines (kv : string * QueueInfo) (g : random.State)
    : list Event * random.State :=
  let qdict := snd kv in
  match CE qdict with
  | Some ce =>
      let (answer, g') := available ce g in
      (header_lines kv ++
       [Call_available (name ce);
        answer_line (default "UnknownCE"%string (CEName qdict)) answer], g')
  | None =>
      (header_lines kv ++
       [Log warn (NoCEObject (default "UnknownQueue"%string (QueueName qdict)))], g)
  end.

(** The same for the queues of a cycle, in order. *)
Fixpoint cycle_lines (value : list (string * QueueInfo)) (g : random.State)
    : list Event * random.State :=
  match value with
  | [] => ([], g)
  | kv :: rest =>
      let (l1, g1) := queue_lines kv g in
      let (l2, g2) := cycle_lines rest g1 in
      (l1 ++ l2, g2)
  end.

(** The arguments of the two calls. *)
Definition catalog_args (me : Self) : getQueues_args :=
  {| community := vo me; siteList := None; ceList := None;
     ceTypeList := None; tags := None |}.

Definition resolve_args (value : SiteDict) : getQueuesResolved_args :=
  {| siteDict := value; queueCECache := ∅; gridEnv := None;
     setup := None; workingDir := None; checkPlatform := None;
     instantiateCEs := Some true |}.

(** The computing elements called in a trace, oldest first. *)
Definition probes (evs : list Event) : list string :=
  omap (fun ev => match ev with
                  | Call_available ce => Some ce
                  | _ => None
                  end) evs.

(** The computing elements of the queues that have one, in the order of
    the queues. *)
Definition ce_names (value : list (string * QueueInfo)) : list string :=
  omap (fun kv => option_map name (CE (snd kv))) value.

End SiteInfoAgent.

(* ================================================================= *)
(** ** Concrete inputs *)

Module Demo.

Definition g0 : random.State :=
  {| random.bits := fun n => Z.of_nat (37 * n + 5); random.cursor := 0 |}.

Definition queue (site : string) (ce : option CEHandle)
    (params : option (gmap string Q)) : QueueInfo :=
  {| Site := Some site; CEName := option_map name ce; CEType := None;
     QueueName := None; CE := ce; ParametersDict := params |}.

Definition cpu_params (cpu : Q) : gmap string Q :=
  list_to_map [("CPUTime", cpu); ("MaxTotalJobs", 300%Q)].

(** Two sites whose CO2 values differ by 1/128. *)
Definition ext_close : gmap string (gmap string Q) :=
  list_to_map [("A.x", list_to_map [("CO2", 1281 # 128)]);
               ("B.x", list_to_map [("CO2", 10.0%Q)])].

(** The same with the CO2 value of [B.x] raised to 20. *)
Definition ext_raised : gmap string (gmap string Q) :=
  list_to_map [("A.x", list_to_map [("CO2", 1281 # 128)]);
               ("B.x", list_to_map [("CO2", 20.0%Q)])].

Definition half_loaded (ce : string) : CEHandle :=
  MockDirector.FixedCE ce 150 0 300.

Definition qa : QueueInfo :=
  queue "A.x" (Some (half_loaded "ce.a")) (Some (cpu_params 3600)).

Definition qb : QueueInfo :=
  queue "B.x" (Some (half_loaded "ce.b")) (Some (cpu_params 3600)).

Definition two_queues : list (string * QueueInfo) := [("qa", qa); ("qb", qb)].


Definition mock_state (qd : list (string * QueueInfo)) : Sys MockDirector.Self :=
  {| self := {| MockDirector.queueDict := qd |}; rng := g0; trace := [] |}.

(** The director of [test.py] after [_buildMockQueueDict]. *)
Definition mock_built : Sys MockDirector.Self :=
  snd (MockDirector._buildMockQueueDict (mock_state [])).

(** Collaborators: a catalog with the given answer, a resolution
    with the given answer that leaves the cache alone. *)
Definition catalog (answer : Outcome (Result SiteDict)) : ResourcesModule :=
  {| getQueues := fun _ => answer |}.

Definition dirac (answer : Outcome (Result SiteDict))
    (resolution : Outcome (Result (list (string * QueueInfo))))
    (community : string) (opts : gmap string string) : Dirac :=
  {| Resources := catalog answer;
     loadModule := fun _ => Return (S_OK (catalog answer));
     getQueuesResolved := fun args => (resolution, queueCECache args);
     getVO := community;
     options := opts |}.

Definition sites : SiteDict := list_to_map [("A.x", [("ce.a", "qa")])].

Definition green_state (rm : ResourcesModule) (qd : list (string * QueueInfo))
    : Sys GreenSiteDirector.Self :=
  {| self := {| GreenSiteDirector.resourcesModule := Some rm;
                GreenSiteDirector.vo := "biomed";
                GreenSiteDirector.self_gridEnv := Some ""%string;
                GreenSiteDirector.workingDirectory := Some "/tmp"%string;
                GreenSiteDirector.self_checkPlatform := false;
                GreenSiteDirector.self_queueCECache := ∅;
                GreenSiteDirector.queueDict := qd |};
     rng := g0; trace := [] |}.

Definition agent_state : Sys SiteInfoAgent.Self :=
  {| self := SiteInfoAgent.__init__; rng := g0; trace := [] |}.

(** A CE that cannot be contacted, and one that reports an error. *)
Definition unreachable (ce : string) : CEHandle :=
  {| name := ce; available := fun g => (Raise (Exception "timeout"), g) |}.

Definition refusing (ce : string) : CEHandle :=
  {| name := ce; available := fun g => (Return (AvailError "no proxy"), g) |}.

(** Queues with and without PUE, CI and parameter mapping. *)
Definition green_params (pue ci : Q) : gmap string Q :=
  list_to_map [("PUE", pue); ("CI", ci)].

Definition three_queues : list (string * QueueInfo) :=
  [("q1", queue "A.x" (Some (half_loaded "ce.a")) (Some (green_params 1.5 300)));
   ("q2", queue "B.x" (Some (unreachable "ce.b")) (Some (green_params 1.2 300)));
   ("q3", queue "C.x" (Some (refusing "ce.c")) (Some (green_params 1.5 300)))].

Definition bare_queue : QueueInfo := queue "D.x" None None.


(** A resolution that ends with a queue without parameter mapping. *)
Definition with_bare_queue : list (string * QueueInfo) :=
  [("q1", queue "A.x" None (Some (green_params 1.5 300)));
   ("q2", queue "B.x" None (Some (green_params 1.2 300)));
   ("q4", bare_queue)].

(** The data of [ext_close] with efficiency values and one more site. *)
Definition ext_verbose : gmap string (gmap string Q) :=
  list_to_map [("A.x", list_to_map [("CO2", 1281 # 128); ("efficiency", 0.9%Q)]);
               ("B.x", list_to_map [("CO2", 10.0%Q); ("efficiency", 0.1%Q)]);
               ("Z.x", list_to_map [("CO2", 1.0%Q)])].

(** Collaborators whose module loader gives the answer [loader]. *)
Definition dirac_loading (loader : Outcome (Result ResourcesModule))
    (answer : Outcome (Result SiteDict))
    (resolution : Outcome (Result (list (string * QueueInfo)))) : Dirac :=
  {| Resources := catalog answer;
     loadModule := fun _ => loader;
     getQueuesResolved := fun args => (resolution, queueCECache args);
     getVO := "";
     options := ∅ |}.

(** A director whose resources module is not set. *)
Definition green_bare (qd : list (string * QueueInfo)) : Sys GreenSiteDirector.Self :=
  {| self := {| GreenSiteDirector.resourcesModule := None;
                GreenSiteDirector.vo := "biomed";
                GreenSiteDirector.self_gridEnv := None;
                GreenSiteDirector.workingDirectory := None;
                GreenSiteDirector.self_checkPlatform := false;
                GreenSiteDirector.self_queueCECache := ∅;
                GreenSiteDirector.queueDict := qd |};
     rng := g0; trace := [] |}.

(** An agent that still holds the queues of an earlier cycle. *)
Definition agent_stale : Sys SiteInfoAgent.Self :=
  {| self := {| SiteInfoAgent.vo := None;
                SiteInfoAgent.queueDict := two_queues;
                SiteInfoAgent.self_queueCECache :=
                  list_to_map [("ce.old"%string, unreachable "ce.old")] |};
     rng := g0;
     trace := [Log always (Text "=== [SiteInfoAgent] Cycle complete ===")] |}.

End Demo.

(* ================================================================= *)
(** ** Proof automation *)

(** Unfolds the plumbing of a computation. *)
Ltac run_monad :=
  cbv [bind ret lift emit log with_rng call_available get_self set_self
       try_except];
  simpl.

Ltac run_green :=
  unfold GreenSiteDirector._buildQueueDict, GreenSiteDirector.build_body,
    GreenSiteDirector.call_getQueues, GreenSiteDirector.call_getQueuesResolved,
    GreenSiteDirector.call_loadModule, GreenSiteDirector.set_queueDict,
    GreenSiteDirector.set_queueCECache, GreenSiteDirector.set_resourcesModule;
  cbv [bind ret lift emit log with_rng get_self set_self try_except];
  cbn [self rng trace fst snd].

Ltac run_agent :=
  unfold SiteInfoAgent.execute, SiteInfoAgent.initialize,
    SiteInfoAgent.call_getQueues, SiteInfoAgent.call_getQueuesResolved,
    SiteInfoAgent.set_queueDict, SiteInfoAgent.set_queueCECache,
    SiteInfoAgent.set_vo;
  cbv [bind ret lift emit log with_rng get_self set_self try_except];
  cbn [self rng trace fst snd].

(* ================================================================= *)
(** * Properties *)

(** ** Rounding *)

Section Rounding.
Import PyNum.

Lemma Qltb_lt (x y : Q) : Qltb x y = true <-> (x < y)%Q.
Proof.
  unfold Qltb. rewrite negb_true_iff.
  destruct (Qle_bool y x) eqn:E.
  - apply Qle_bool_iff in E. split; [discriminate | intros H; exfalso; lra].
  - split; [intros _ | reflexivity].
    apply Qnot_le_lt. intros H. apply Qle_bool_iff in H. congruence.
Qed.

Lemma Qltb_ge (x y : Q) : Qltb x y = false <-> (y <= x)%Q.
Proof.
  destruct (Qltb x y) eqn:E.
  - apply Qltb_lt in E. split; [discriminate | intros H; exfalso; lra].
  - split; [intros _ | reflexivity].
    apply Qnot_lt_le. intros H. apply Qltb_lt in H. congruence.
Qed.

Lemma round_half_even_bounds (x : Q) :
  (Qfloor x <= round_half_even x <= Qfloor x + 1)%Z.
Proof.
  unfold round_half_even.
  destruct (Qcompare _ _); [destruct (Z.even _) | |]; lia.
Qed.

Lemma round_half_even_mono (x y : Q) :
  (x <= y)%Q -> (round_half_even x <= round_half_even y)%Z.
Proof.
  intros Hxy.
  pose proof (Qfloor_resp_le _ _ Hxy) as Hf.
  pose proof (round_half_even_bounds x) as Bx.
  pose proof (round_half_even_bounds y) as By.
  destruct (Z.eq_dec (Qfloor x) (Qfloor y)) as [E | NE]; [| lia].
  unfold round_half_even in *. rewrite <- E in *.
  destruct (Qcompare (x - inject_Z (Qfloor x)) (1 # 2)) eqn:Cx;
    destruct (Qcompare (y - inject_Z (Qfloor x)) (1 # 2)) eqn:Cy;
    try (destruct (Z.even (Qfloor x))); try lia; exfalso.
  all: repeat match goal with
    | H : Qcompare _ _ = Eq |- _ => apply Qeq_alt in H
    | H : Qcompare _ _ = Lt |- _ => apply Qlt_alt in H
    | H : Qcompare _ _ = Gt |- _ => apply Qgt_alt in H
    end; lra.
Qed.

Lemma round_half_even_inject (z : Z) : round_half_even (inject_Z z) = z.
Proof.
  unfold round_half_even. rewrite Qfloor_Z.
  destruct (Qcompare _ _) eqn:C; [| reflexivity |].
  - apply Qeq_alt in C. exfalso. lra.
  - apply Qgt_alt in C. exfalso. lra.
Qed.

Lemma round_mono (x y : Q) (n : positive) :
  (x <= y)%Q -> (round x n <= round y n)%Q.
Proof.
  intros Hxy. unfold round, Qle. simpl.
  apply Z.mul_le_mono_nonneg_r; [lia |].
  apply round_half_even_mono.
  apply Qmult_le_compat_r; [exact Hxy |].
  unfold Qle. simpl. lia.
Qed.

Lemma round_comp (x y : Q) (n : positive) :
  (x == y)%Q -> round x n = round y n.
Proof.
  intros Hxy. unfold round. f_equal.
  apply Z.le_antisymm; apply round_half_even_mono; rewrite Hxy; apply Qle_refl.
Qed.

(** A number with at most [n] decimals is its own rounding. *)
Lemma round_decimal (z : Z) (n : positive) :
  (round (z # 10 ^ n) n == z # 10 ^ n)%Q.
Proof.
  unfold round.
  assert (E : ((z # 10 ^ n) * inject_Z (Z.pos (10 ^ n)) == inject_Z z)%Q).
  { unfold Qeq, inject_Z. simpl. lia. }
  assert (R : round_half_even ((z # 10 ^ n) * inject_Z (Z.pos (10 ^ n))) = z).
  { rewrite <- (round_half_even_inject z) at 2.
    apply Z.le_antisymm; apply round_half_even_mono; rewrite E; apply Qle_refl. }
  rewrite R. reflexivity.
Qed.

End Rounding.

(** ** Order of appearance *)

Section Precedes.
Context {A : Type}.
Implicit Types (a b x : A) (l : list A).

Lemma precedes_cons_iff a b x l :
  precedes a b (x :: l) <-> (a = x /\ In b l) \/ precedes a b l.
Proof.
  split.
  - inversion 1; subst; auto.
  - intros [[-> H] | H]; [apply precedes_here | apply precedes_later]; exact H.
Qed.

Lemma precedes_nil a b : ~ precedes a b [].
Proof. inversion 1. Qed.

Lemma precedes_In a b l : precedes a b l -> In a l /\ In b l.
Proof.
  induction 1 as [l H | x l H [IHa IHb]]; simpl; auto.
Qed.

Lemma precedes_app_iff a b l1 l2 :
  precedes a b (l1 ++ l2) <->
  precedes a b l1 \/ precedes a b l2 \/ (In a l1 /\ In b l2).
Proof.
  induction l1 as [| x l1 IH]; simpl.
  - split; [auto | intros [H | [H | [[] _]]]; [destruct (precedes_nil _ _ H) | exact H]].
  - rewrite !precedes_cons_iff, IH, in_app_iff. intuition (subst; auto).
Qed.

Lemma precedes_neq a b l : List.NoDup l -> precedes a b l -> a <> b.
Proof.
  intros ND. induction 1 as [l H | x l H IH];
    inversion ND as [| ? ? Hn ND']; subst.
  - intros ->. exact (Hn H).
  - exact (IH ND').
Qed.

Lemma precedes_total a b l :
  In a l -> In b l -> a <> b -> precedes a b l \/ precedes b a l.
Proof.
  induction l as [| x l IH]; simpl; [intros [] |].
  intros [-> | Ha] [-> | Hb] NE.
  - congruence.
  - left. apply precedes_here. exact Hb.
  - right. apply precedes_here. exact Ha.
  - destruct (IH Ha Hb NE); [left | right]; apply precedes_later; assumption.
Qed.

Lemma precedes_asym a b l : List.NoDup l -> precedes a b l -> ~ precedes b a l.
Proof.
  intros ND. induction ND as [| x l Hx ND IH]; intros H1 H2.
  - exact (precedes_nil _ _ H1).
  - apply precedes_cons_iff in H1. apply precedes_cons_iff in H2.
    destruct H1 as [[-> Hb] | H1], H2 as [[-> Ha] | H2].
    + contradiction.
    + apply precedes_In in H2. tauto.
    + apply precedes_In in H1. tauto.
    + exact (IH H1 H2).
Qed.

Lemma precedes_sorted (R : A -> A -> Prop) a b l :
  StronglySorted R l -> precedes a b l -> R a b.
Proof.
  intros S. induction 1 as [l H | x l H IH].
  - inversion S as [| ? ? _ F]; subst.
    rewrite List.Forall_forall in F. auto.
  - inversion S; subst. auto.
Qed.

(** Two lists without repetition that hold the same elements in the
    same order are equal. *)
Lemma NoDup_precedes_eq l1 :
  forall l2,
    List.NoDup l1 -> List.NoDup l2 ->
    (forall a, In a l1 <-> In a l2) ->
    (forall a b, precedes a b l1 -> precedes a b l2) ->
    l1 = l2.
Proof.
  induction l1 as [| x l1 IH]; intros l2 ND1 ND2 Hin Hp.
  - destruct l2 as [| y l2]; [reflexivity |].
    destruct (proj2 (Hin y) (or_introl eq_refl)).
  - destruct l2 as [| y l2]; [destruct (proj1 (Hin x) (or_introl eq_refl)) |].
    inversion ND1 as [| ? ? Hx ND1']; subst.
    inversion ND2 as [| ? ? Hy ND2']; subst.
    assert (E : y = x).
    { destruct (proj1 (Hin x) (or_introl eq_refl)) as [E | Hx2]; [exact E |].
      destruct (proj2 (Hin y) (or_introl eq_refl)) as [E | Hy1]; [congruence |].
      exfalso.
      apply (precedes_asym y x (y :: l2) ND2).
      - apply precedes_here. exact Hx2.
      - apply Hp. apply precedes_here. exact Hy1. }
    subst y. f_equal. apply IH; try assumption.
    + intros a. split; intros Ha.
      * destruct (proj1 (Hin a) (or_intror Ha)) as [E | H]; [congruence | exact H].
      * destruct (proj2 (Hin a) (or_intror Ha)) as [E | H]; [congruence | exact H].
    + intros a b H.
      assert (H' := Hp a b (precedes_later a b x l1 H)).
      apply precedes_cons_iff in H'. destruct H' as [[E _] | H']; [| exact H'].
      apply precedes_In in H. destruct H as [Ha _]. congruence.
Qed.

End Precedes.

(** ** The stable sort *)

Section SortFacts.
Context {A K : Type}.
Variable key : A -> K.
Variable lt : K -> K -> bool.
Hypothesis lt_asym : forall a b, lt a b = true -> lt b a = false.
Hypothesis lt_cotrans :
  forall a b c, lt a c = true -> lt a b = true \/ lt b c = true.

Lemma insert_stable_split (x : A) (l : list A) :
  exists l1 l2,
    l = l1 ++ l2 /\ insert_stable key lt x l = l1 ++ x :: l2 /\
    Forall (fun y => lt (key y) (key x) = true) l1 /\
    match l2 with [] => True | y :: _ => lt (key y) (key x) = false end.
Proof.
  induction l as [| y l IH]; simpl.
  - exists [], []. repeat split; constructor.
  - destruct (lt (key y) (key x)) eqn:E.
    + destruct IH as (l1 & l2 & -> & -> & F & H).
      exists (y :: l1), l2. repeat split; [constructor; assumption | exact H].
    + exists [], (y :: l). repeat split; [constructor | exact E].
Qed.

Lemma insert_stable_split_sorted (x : A) (l : list A) :
  StronglySorted (not_above key lt) l ->
  exists l1 l2,
    l = l1 ++ l2 /\ insert_stable key lt x l = l1 ++ x :: l2 /\
    Forall (fun y => lt (key y) (key x) = true) l1 /\
    Forall (fun y => lt (key y) (key x) = false) l2.
Proof.
  intros S. destruct (insert_stable_split x l) as (l1 & l2 & -> & E & F & H).
  exists l1, l2. repeat split; try assumption.
  destruct l2 as [| y l2]; [constructor |].
  constructor; [exact H |].
  assert (S2 : StronglySorted (not_above key lt) (y :: l2)).
  { clear - S. induction l1; simpl in S; [exact S | inversion S; auto]. }
  inversion S2 as [| ? ? _ Fy]; subst.
  rewrite List.Forall_forall in *. intros z Hz. specialize (Fy z Hz).
  unfold not_above in Fy.
  destruct (lt (key z) (key x)) eqn:Ez; [| reflexivity].
  destruct (lt_cotrans _ (key y) _ Ez); congruence.
Qed.

Lemma insert_stable_Permutation (x : A) (l : list A) :
  Permutation (x :: l) (insert_stable key lt x l).
Proof.
  destruct (insert_stable_split x l) as (l1 & l2 & -> & -> & _).
  apply Permutation_middle.
Qed.

Lemma sort_stable_Permutation (l : list A) :
  Permutation l (sort_stable key lt l).
Proof.
  induction l as [| x l IH]; simpl; [constructor |].
  etransitivity; [| apply insert_stable_Permutation].
  constructor. exact IH.
Qed.

Lemma sort_stable_In (a : A) (l : list A) :
  In a (sort_stable key lt l) <-> In a l.
Proof.
  split; apply Permutation_in;
    [symmetry |]; apply sort_stable_Permutation.
Qed.

Lemma sort_stable_sorted (l : list A) :
  StronglySorted (not_above key lt) (sort_stable key lt l).
Proof.
  induction l as [| x l IH]; simpl; [constructor |].
  destruct (insert_stable_split_sorted x _ IH) as (l1 & l2 & E & -> & F1 & F2).
  rewrite E in IH. clear E.
  induction l1 as [| y l1 IHl]; simpl in *.
  - constructor; [exact IH |].
    rewrite List.Forall_forall in *. intros z Hz. exact (F2 z Hz).
  - inversion IH as [| ? ? S Fy]; subst. inversion F1; subst.
    constructor; [auto |].
    rewrite List.Forall_forall in *. intros z Hz.
    apply in_app_iff in Hz. destruct Hz as [Hz | [<- | Hz]].
    + apply Fy, in_app_iff; auto.
    + unfold not_above. auto.
    + apply Fy, in_app_iff; auto.
Qed.

(** In the output, [a] stands before [b] exactly when its key is
    smaller, or neither key is smaller and [a] stood before [b] in the
    input. *)
Lemma sort_stable_precedes (l : list A) (a b : A) :
  List.NoDup l ->
  precedes a b (sort_stable key lt l) <->
  In a l /\ In b l /\ a <> b /\
  (lt (key a) (key b) = true \/
   (lt (key b) (key a) = false /\ precedes a b l)).
Proof.
  intros ND. revert a b. induction ND as [| x l Hx ND IH]; intros a b; simpl.
  - split; [intros H; destruct (precedes_nil _ _ H) | intros [[] _]].
  - destruct (insert_stable_split_sorted x _ (sort_stable_sorted l))
      as (l1 & l2 & E & -> & F1 & F2).
    assert (In1 : forall z, In z l1 <-> In z l /\ lt (key z) (key x) = true).
    { intros z. rewrite <- (sort_stable_In z l), E, in_app_iff.
      rewrite List.Forall_forall in F1, F2. split.
      - intros H. split; [auto | auto].
      - intros [[H | H] L]; [exact H | rewrite (F2 z H) in L; discriminate]. }
    assert (In2 : forall z, In z l2 <-> In z l /\ lt (key z) (key x) = false).
    { intros z. rewrite <- (sort_stable_In z l), E, in_app_iff.
      rewrite List.Forall_forall in F1, F2. split.
      - intros H. split; [auto | auto].
      - intros [[H | H] L]; [rewrite (F1 z H) in L; discriminate | exact H]. }
    assert (P : precedes a b (l1 ++ x :: l2) <->
                precedes a b (sort_stable key lt l) \/
                (a = x /\ In b l2) \/ (In a l1 /\ b = x)).
    { rewrite E, !precedes_app_iff, precedes_cons_iff. simpl. intuition. }
    rewrite P, IH, In1, In2, precedes_cons_iff. clear P E In1 In2 F1 F2 IH.
    split.
    + intros [(Ha & Hb & Hab & H) | [(-> & Hb & L) | ((Ha & L) & ->)]].
      * split; [auto |]. split; [auto |]. split; [exact Hab |].
        destruct H as [H | [H1 H2]]; auto.
      * split; [auto |]. split; [auto |]. split; [intros ->; auto |].
        destruct (lt (key x) (key b)); auto.
      * split; [auto |]. split; [auto |]. split; [intros ->; auto |]. auto.
    + intros (Ha & Hb & Hab & H).
      destruct Ha as [<- | Ha], Hb as [<- | Hb]; [congruence | | |].
      * right; left. split; [reflexivity |]. split; [exact Hb |].
        destruct H as [H | [H _]]; [apply lt_asym; exact H | exact H].
      * right; right. split; [| reflexivity]. split; [exact Ha |].
        destruct H as [H | [_ [[-> _] | H]]]; [exact H | contradiction |].
        apply precedes_In in H. destruct H; contradiction.
      * left. split; [exact Ha |]. split; [exact Hb |]. split; [exact Hab |].
        destruct H as [H | [H1 [[-> _] | H2]]]; auto; contradiction.
Qed.

(** The stable sort is the only list that is a permutation of the
    input, sorted by the keys, and keeps elements with equivalent keys
    in the order of the input: every stable sorting algorithm computes
    [sort_stable]. *)
Lemma sort_stable_unique (l l' : list A) :
  List.NoDup l ->
  Permutation l l' ->
  StronglySorted (not_above key lt) l' ->
  (forall a b,
      precedes a b l ->
      lt (key a) (key b) = false -> lt (key b) (key a) = false ->
      precedes a b l') ->
  l' = sort_stable key lt l.
Proof.
  intros ND P S St.
  assert (ND' : List.NoDup l') by (eapply Permutation_NoDup; eassumption).
  apply NoDup_precedes_eq.
  - exact ND'.
  - eapply Permutation_NoDup; [apply sort_stable_Permutation | exact ND].
  - intros a. rewrite sort_stable_In. split; apply Permutation_in;
      [symmetry |]; exact P.
  - intros a b H. apply sort_stable_precedes; [exact ND |].
    destruct (precedes_In _ _ _ H) as [Ha Hb].
    assert (NE : a <> b) by (apply (precedes_neq a b l' ND' H)).
    apply (Permutation_in _ (Permutation_sym P)) in Ha.
    apply (Permutation_in _ (Permutation_sym P)) in Hb.
    repeat (split; [assumption |]).
    pose proof (precedes_sorted _ _ _ _ S H) as Hab. unfold not_above in Hab.
    destruct (lt (key a) (key b)) eqn:E; [left; reflexivity | right].
    split; [exact Hab |].
    destruct (precedes_total a b l Ha Hb NE) as [T | T]; [exact T |].
    exfalso. apply (precedes_asym a b l' ND' H).
    apply St; assumption.
Qed.

End SortFacts.

(** ** [sorted] with a key that may raise *)

Section SortedKeyFacts.
Context {A K : Type}.
Variable key : A -> Outcome K.
Variable lt : K -> K -> bool.
Variable d : K.

Lemma decorate_Return (l : list A) (kl : list (K * A)) :
  decorate key l = Return kl ->
  kl = map (fun a => (key_or d key a, a)) l /\
  Forall (fun a => exists k, key a = Return k) l.
Proof.
  revert kl. induction l as [| x l IH]; simpl; intros kl H.
  - inversion H. split; constructor.
  - unfold key_or at 1. destruct (key x) as [k |] eqn:Ex; [| discriminate].
    destruct (decorate key l) as [kl' |]; [| discriminate].
    inversion H; subst. destruct (IH _ eq_refl) as [-> F].
    split; [reflexivity | constructor; eauto].
Qed.

Lemma decorate_total (l : list A) :
  Forall (fun a => exists k, key a = Return k) l ->
  decorate key l = Return (map (fun a => (key_or d key a, a)) l).
Proof.
  induction 1 as [| x l [k Hk] F IH]; simpl; [reflexivity |].
  unfold key_or at 1. rewrite Hk, IH. reflexivity.
Qed.

Lemma decorate_Raise (l : list A) (e : exn) :
  decorate key l = Raise e -> Exists (fun a => key a = Raise e) l.
Proof.
  induction l as [| x l IH]; simpl; [discriminate |].
  destruct (key x) as [k |] eqn:Ex.
  - destruct (decorate key l); [discriminate |].
    intros H. inversion H; subst. apply Exists_cons_tl. auto.
  - intros H. inversion H; subst. apply Exists_cons_hd. exact Ex.
Qed.

Lemma insert_stable_decorated (f : A -> K) (x : A) (kl : list (K * A)) :
  Forall (fun p => fst p = f (snd p)) kl ->
  map snd (insert_stable fst lt (f x, x) kl) = insert_stable f lt x (map snd kl) /\
  Forall (fun p => fst p = f (snd p)) (insert_stable fst lt (f x, x) kl).
Proof.
  induction 1 as [| p kl Hp F [IH1 IH2]]; simpl.
  - split; [reflexivity | repeat constructor].
  - rewrite Hp. destruct (lt (f (snd p)) (f x)); simpl.
    + rewrite IH1. split; [reflexivity | constructor; assumption].
    + split; [reflexivity | repeat constructor; assumption].
Qed.

Lemma sort_stable_decorated (f : A -> K) (l : list A) :
  map snd (sort_stable fst lt (map (fun a => (f a, a)) l)) = sort_stable f lt l /\
  Forall (fun p => fst p = f (snd p)) (sort_stable fst lt (map (fun a => (f a, a)) l)).
Proof.
  induction l as [| x l [IH1 IH2]]; simpl.
  - split; constructor.
  - destruct (insert_stable_decorated f x _ IH2) as [E F].
    rewrite <- IH1. split; assumption.
Qed.

(** When every key is there, [sorted] is the stable sort by the keys. *)
Lemma sorted_Return (l l' : list A) :
  sorted key lt l = Return l' ->
  l' = sort_stable (key_or d key) lt l /\
  Forall (fun a => exists k, key a = Return k) l.
Proof.
  unfold sorted. destruct (decorate key l) as [kl |] eqn:E; [| discriminate].
  intros H. inversion H; subst. clear H.
  destruct (decorate_Return _ _ E) as [-> F].
  split; [apply sort_stable_decorated | exact F].
Qed.

Lemma sorted_total (l : list A) :
  Forall (fun a => exists k, key a = Return k) l ->
  sorted key lt l = Return (sort_stable (key_or d key) lt l).
Proof.
  intros F. unfold sorted. rewrite (decorate_total _ F).
  f_equal. apply sort_stable_decorated.
Qed.

Lemma sorted_Raise (l : list A) (e : exn) :
  sorted key lt l = Raise e -> Exists (fun a => key a = Raise e) l.
Proof.
  unfold sorted. destruct (decorate key l) eqn:E; [discriminate |].
  intros H. inversion H; subst. apply decorate_Raise. exact E.
Qed.

End SortedKeyFacts.

(** ** Dictionaries in insertion order *)

Section DictFacts.
Context {V : Type}.
Implicit Types (d : list (string * V)) (k p q : string) (v : V).

Lemma dict_set_keys k v d : In k (keys d) -> keys (dict_set k v d) = keys d.
Proof.
  induction d as [| [k' v'] d IH]; simpl; [intros [] |].
  destruct (String.eqb_spec k' k) as [-> | NE]; [reflexivity |].
  intros [E | H]; [congruence |]. simpl. f_equal. auto.
Qed.

Lemma dict_set_fresh k v d : ~ In k (keys d) -> dict_set k v d = d ++ [(k, v)].
Proof.
  induction d as [| [k' v'] d IH]; simpl; [reflexivity |].
  intros H. destruct (String.eqb_spec k' k) as [-> | NE]; [tauto |].
  f_equal. apply IH. tauto.
Qed.

Lemma dict_set_middle k v v0 d1 d2 :
  ~ In k (keys d1) ->
  dict_set k v (d1 ++ (k, v0) :: d2) = d1 ++ (k, v) :: d2.
Proof.
  induction d1 as [| [k' v'] d1 IH]; simpl; intros H.
  - rewrite String.eqb_refl. reflexivity.
  - destruct (String.eqb_spec k' k) as [-> | NE]; [tauto |].
    f_equal. apply IH. tauto.
Qed.

(** [dict] of the items of a dictionary, in any order, is that list. *)
Lemma dict_of_items (l : list (string * V)) : List.NoDup (keys l) -> dict l = l.
Proof.
  unfold dict.
  assert (G : forall acc, List.NoDup (keys (acc ++ l)) ->
    fold_left (fun d kv => dict_set (fst kv) (snd kv) d) l acc = acc ++ l).
  { induction l as [| [k v] l IH]; intros acc ND; simpl.
    - rewrite app_nil_r. reflexivity.
    - rewrite dict_set_fresh.
      + rewrite IH; rewrite <- app_assoc; [reflexivity | exact ND].
      + unfold keys in ND. rewrite map_app in ND. simpl in ND.
        apply NoDup_remove_2 in ND. rewrite in_app_iff in ND. tauto. }
  intros ND. apply (G []). exact ND.
Qed.

Lemma position_keys k d d' : keys d = keys d' -> position k d = position k d'.
Proof.
  revert d'. induction d as [| [k1 v1] d IH]; intros [| [k2 v2] d']; simpl;
    try discriminate; [reflexivity |].
  intros E. inversion E; subst. rewrite (IH d'); auto.
Qed.

Lemma position_Some k d : In k (keys d) <-> exists i, position k d = Some i.
Proof.
  induction d as [| [k' v'] d IH]; simpl.
  - split; [intros [] | intros [i H]; discriminate].
  - destruct (String.eqb_spec k' k) as [-> | NE].
    + split; eauto.
    + rewrite IH. split.
      * intros [E | [i H]]; [congruence |]. rewrite H. simpl. eauto.
      * intros [i H]. right. destruct (position k d); [eauto | discriminate].
Qed.

Lemma dict_get_In k v d : List.NoDup (keys d) -> dict_get k d = Some v <-> In (k, v) d.
Proof.
  induction d as [| [k' v'] d IH]; simpl; intros ND.
  - split; [discriminate | intros []].
  - inversion ND as [| ? ? Hn ND']; subst.
    destruct (String.eqb_spec k' k) as [-> | NE].
    + split.
      * intros H. inversion H. auto.
      * intros [H | H]; [congruence |].
        exfalso. apply Hn. apply (in_map fst) in H. exact H.
    + rewrite (IH ND'). split; [auto | intros [H | H]; [congruence | exact H]].
Qed.

Lemma NoDup_keys d : List.NoDup (keys d) -> List.NoDup d.
Proof. apply NoDup_map_inv. Qed.

(** On a dictionary, the order of the keys is the order of the items. *)
Lemma ranked_before_precedes p q d :
  List.NoDup (keys d) ->
  ranked_before p q d <-> exists vp vq, precedes (p, vp) (q, vq) d.
Proof.
  unfold ranked_before.
  induction d as [| [k v] d IH]; simpl; intros ND.
  - split; [intros [] | intros (vp & vq & H); destruct (precedes_nil _ _ H)].
  - inversion ND as [| ? ? Hn ND']; subst. specialize (IH ND').
    destruct (String.eqb_spec k p) as [-> | NEp].
    + destruct (String.eqb_spec p q) as [-> | NEq].
      * split; [lia |]. intros (vp & vq & H).
        apply precedes_cons_iff in H. exfalso. apply Hn.
        destruct H as [[_ H] | H]; [| apply precedes_In in H; destruct H as [_ H]];
          apply (in_map fst) in H; exact H.
      * destruct (position q d) as [j |] eqn:Pq; simpl.
        -- split; [intros _ | lia].
           assert (Hq : In q (keys d)) by (apply position_Some; eauto).
           apply in_map_iff in Hq. destruct Hq as ([q' vq] & E & Hq).
           simpl in E. subst q'. exists v, vq. apply precedes_here. exact Hq.
        -- split; [intros [] |]. intros (vp & vq & H).
           assert (Hq : In q (keys d)).
           { apply precedes_cons_iff in H.
             destruct H as [[_ H] | H]; [| apply precedes_In in H; destruct H as [_ H]];
               apply (in_map fst) in H; exact H. }
           apply position_Some in Hq. destruct Hq as [j Hj]. congruence.
    + destruct (String.eqb_spec k q) as [-> | NEq].
      * destruct (position p d); simpl; (split; [try lia; intros [] |]);
          intros (vp & vq & H); exfalso;
          apply precedes_cons_iff in H; destruct H as [[E _] | H];
          try congruence; apply precedes_In in H; destruct H as [_ H];
          apply Hn; apply (in_map fst) in H; exact H.
      * assert (R : (exists vp vq, precedes (p, vp) (q, vq) ((k, v) :: d)) <->
                    (exists vp vq, precedes (p, vp) (q, vq) d)).
        { split; intros (vp & vq & H); exists vp, vq.
          - apply precedes_cons_iff in H. destruct H as [[E _] | H]; [congruence | exact H].
          - apply precedes_later. exact H. }
        rewrite R, <- IH.
        destruct (position p d), (position q d); simpl; try tauto. lia.
Qed.

End DictFacts.

(** ** Ranking a dictionary by a key *)

Section RankFacts.
Context {V K : Type}.
Variable f : string * V -> K.
Variable lt : K -> K -> bool.
Hypothesis lt_asym : forall a b, lt a b = true -> lt b a = false.
Hypothesis lt_cotrans :
  forall a b c, lt a c = true -> lt a b = true \/ lt b c = true.

Lemma sort_stable_keys_NoDup (d : list (string * V)) :
  List.NoDup (keys d) -> List.NoDup (keys (sort_stable f lt d)).
Proof.
  intros ND. eapply Permutation_NoDup; [| exact ND].
  apply Permutation_map, sort_stable_Permutation.
Qed.


(** Queue [p] is ranked before queue [q] exactly when its key is
    smaller, or neither key is smaller and [p] came first. *)
Lemma ranked_before_sort_stable (d : list (string * V)) (p q : string) (vp vq : V) :
  List.NoDup (keys d) ->
  dict_get p d = Some vp -> dict_get q d = Some vq -> p <> q ->
  ranked_before p q (sort_stable f lt d) <->
  lt (f (p, vp)) (f (q, vq)) = true \/
  (lt (f (q, vq)) (f (p, vp)) = false /\ ranked_before p q d).
Proof.
  intros ND Hp Hq NE.
  pose proof (sort_stable_keys_NoDup d ND) as ND'.
  pose proof (NoDup_keys d ND) as NDd.
  assert (U : forall k v v', In (k, v) d -> dict_get k d = Some v' -> v = v').
  { intros k v v' H1 H2. apply (dict_get_In k v d ND) in H1. congruence. }
  rewrite (ranked_before_precedes p q _ ND'), (ranked_before_precedes p q d ND).
  split.
  - intros (vp' & vq' & H).
    apply (sort_stable_precedes f lt lt_asym lt_cotrans d _ _ NDd) in H.
    destruct H as (Ip & Iq & _ & H).
    rewrite (U _ _ _ Ip Hp), (U _ _ _ Iq Hq) in H.
    destruct H as [H | [H1 H2]]; [left; exact H | right].
    split; [exact H1 | eauto].
  - intros H. exists vp, vq.
    apply (sort_stable_precedes f lt lt_asym lt_cotrans d _ _ NDd).
    split; [apply dict_get_In; assumption |].
    split; [apply dict_get_In; assumption |].
    split; [congruence |].
    destruct H as [H | [H1 (vp' & vq' & H2)]]; [left; exact H | right].
    split; [exact H1 |].
    destruct (precedes_In _ _ _ H2) as [Ip Iq].
    rewrite (U _ _ _ Ip Hp), (U _ _ _ Iq Hq) in H2. exact H2.
Qed.

End RankFacts.

Lemma Qltb_asym (a b : Q) : PyNum.Qltb a b = true -> PyNum.Qltb b a = false.
Proof. rewrite Qltb_lt, Qltb_ge. lra. Qed.

Lemma Qltb_cotrans (a b c : Q) :
  PyNum.Qltb a c = true -> PyNum.Qltb a b = true \/ PyNum.Qltb b c = true.
Proof.
  rewrite !Qltb_lt. intros H.
  destruct (Qlt_le_dec a b) as [L | L]; [left; exact L | right; lra].
Qed.

(** ** The scoring loop of the mock director *)


Section ScoringLoop.
Import MockDirector.

Lemma true_div_Return (a b : Q) :
  ~ (b == 0)%Q -> true_div a b = Return (a / b)%Q.
Proof.
  intros H. unfold true_div.
  destruct (Qeq_bool b 0) eqn:E; [| reflexivity].
  apply Qeq_bool_iff in E. contradiction.
Qed.

(** One queue: what happens depends on the queue and the generator
    only; the external data only enters the value of the score. *)
Lemma score_queue_cases (qinfo : QueueInfo) (g : random.State) :
  (exists info g' evs,
      reported qinfo info /\
      forall ext (s : Sys Self), rng s = g ->
        score_queue ext qinfo s = (Return (scored ext qinfo info), moved s g' evs)) \/
  (exists e g' evs,
      ~ scorable qinfo /\
      forall ext (s : Sys Self), rng s = g ->
        score_queue ext qinfo s = (Raise e, moved s g' evs)).
Proof.
  unfold score_queue.
  destruct (Site qinfo) as [site |] eqn:ESite; cycle 1.
  { right. exists (KeyError "Site"), g, [].
    split; [intros (? & ? & ? & ? & ? & _); congruence |]. intros ext s <-.
    unfold moved. rewrite app_nil_r. destruct s; reflexivity. }
  destruct (CE qinfo) as [ce |] eqn:ECE; cycle 1.
  { right. exists (KeyError "CE"), g, [].
    split; [intros (? & ? & ? & ? & ? & ? & _); congruence |]. intros ext s <-.
    unfold moved. rewrite app_nil_r. destruct s; reflexivity. }
  destruct (ParametersDict qinfo) as [params |] eqn:EP; cycle 1.
  { right. exists (KeyError "ParametersDict"), g, [].
    split; [intros (? & ? & ? & ? & ? & ? & ? & _); congruence |]. intros ext s <-.
    unfold moved. rewrite app_nil_r. destruct s; reflexivity. }
  destruct (params !! "CPUTime") as [cpu |] eqn:ECpu; cycle 1.
  { right. exists (KeyError "CPUTime"), g, [].
    split; [intros (? & ? & ? & ? & ? & ? & ? & ? & _); congruence |]. intros ext s <-.
    unfold moved. rewrite app_nil_r. destruct s. run_monad.
    rewrite ECpu. reflexivity. }
  assert (NS : forall o g',
               available ce g = (o, g') ->
               (forall info v, o = Return (AvailOK info v) -> MaxTotalJobs info = 0%Z) ->
               ~ scorable qinfo).
  { intros o g' Ho Hbad (site' & ce' & params' & cpu' & _ & Hce & _ & _ & Hav).
    assert (ce' = ce) by congruence. subst ce'.
    destruct (Hav g) as (info & v & g'' & Ha & Hpos).
    rewrite Ha in Ho. inversion Ho; subst.
    specialize (Hbad info v eq_refl). lia. }
  destruct (available ce g) as [[[info v | msg] | e] g'] eqn:EA.
  - destruct (Qeq_bool (inject_Z (MaxTotalJobs info)) 0) eqn:EZ.
    + right. exists ZeroDivisionError, g', [Call_available (name ce)].
      split.
      { apply (NS _ _ eq_refl). intros info' v' H. inversion H; subst.
        apply Qeq_bool_iff in EZ. unfold Qeq in EZ. simpl in EZ. lia. }
      intros ext s <-. run_monad.
      rewrite ECpu. simpl. rewrite EA. simpl. unfold true_div. rewrite EZ. reflexivity.
    + left. exists info, g', [Call_available (name ce)].
      split.
      { exists ce, v, g, g'. repeat split; auto. intros Z0.
        rewrite Z0 in EZ. discriminate. }
      intros ext s <-. run_monad.
      rewrite ECpu. simpl. rewrite EA. simpl. unfold true_div. rewrite EZ. simpl.
      unfold ret, scored, exact_score, load_of, spec_load_factor, spec_score, co2_of.
      rewrite ESite, EP. simpl. rewrite ECpu. reflexivity.
  - right. exists (KeyError "CEInfoDict"), g', [Call_available (name ce)].
    split; [apply (NS _ _ eq_refl); discriminate |].
    intros ext s <-. run_monad.
    rewrite ECpu. simpl. rewrite EA. reflexivity.
  - right. exists e, g', [Call_available (name ce)].
    split; [apply (NS _ _ eq_refl); discriminate |].
    intros ext s <-. run_monad.
    rewrite ECpu. simpl. rewrite EA. reflexivity.
Qed.

Lemma scored_items_keys ext snap items :
  keys (scored_items ext snap items) = keys items.
Proof.
  unfold scored_items, keys. rewrite map_map. apply map_ext.
  intros kv. destruct (dict_get (fst kv) snap); reflexivity.
Qed.

Lemma scored_items_cons_other ext k info snap items :
  ~ In k (keys items) ->
  scored_items ext ((k, info) :: snap) items = scored_items ext snap items.
Proof.
  intros H. unfold scored_items. apply map_ext_in. intros kv Hkv. simpl.
  destruct (String.eqb_spec k (fst kv)) as [-> | NE]; [| reflexivity].
  exfalso. apply H. apply in_map. exact Hkv.
Qed.

(** The loop, started on the items that are still to do. *)
Lemma score_loop (items : list (string * QueueInfo)) :
  forall g,
    (exists snap g' evs,
        keys snap = keys items /\
        (forall k info, dict_get k snap = Some info ->
           exists qinfo, In (k, qinfo) items /\ reported qinfo info) /\
        forall ext done (s : Sys Self),
          rng s = g -> queueDict (self s) = done ++ items ->
          List.NoDup (keys (done ++ items)) ->
          for_each (score_and_store ext) items s =
          (Return tt,
           {| self := {| queueDict := done ++ scored_items ext snap items |};
              rng := g'; trace := trace s ++ evs |})) \/
    (exists e,
        Exists (fun kv => ~ scorable (snd kv)) items /\
        forall ext done (s : Sys Self),
          rng s = g -> queueDict (self s) = done ++ items ->
          List.NoDup (keys (done ++ items)) ->
          exists s',
            for_each (score_and_store ext) items s = (Raise e, s') /\
            keys (queueDict (self s')) = keys (done ++ items)).
Proof.
  induction items as [| [k qi] items IH]; intros g.
  - left. exists [], g, []. split; [reflexivity |]. split; [discriminate |].
    intros ext done [[qd] g0 tr] Hg Hqd _. simpl in *. subst.
    rewrite !app_nil_r. reflexivity.
  - destruct (score_queue_cases qi g)
      as [(info & g1 & evs1 & Rep & Hq) | (e & g1 & evs1 & NS & Hq)].
    + assert (Step : forall ext done (s : Sys Self),
               rng s = g -> queueDict (self s) = done ++ (k, qi) :: items ->
               List.NoDup (keys (done ++ (k, qi) :: items)) ->
               score_and_store ext (k, qi) s =
               (Return tt,
                {| self := {| queueDict := (done ++ [(k, scored ext qi info)]) ++ items |};
                   rng := g1; trace := trace s ++ evs1 |})).
      { intros ext done s Hg Hqd ND. unfold score_and_store, bind at 1. simpl.
        rewrite (Hq ext s Hg). unfold set_queue. run_monad. rewrite Hqd.
        rewrite dict_set_middle, <- app_assoc; [reflexivity |].
        unfold keys in ND. rewrite map_app in ND. simpl in ND.
        apply NoDup_remove_2 in ND. rewrite in_app_iff in ND. tauto. }
      assert (NDk : forall done, List.NoDup (keys (done ++ (k, qi) :: items)) ->
                                 ~ In k (keys items)).
      { intros done ND. unfold keys in ND. rewrite map_app in ND. simpl in ND.
        apply NoDup_remove_2 in ND. rewrite in_app_iff in ND. tauto. }
      assert (KS : forall ext done,
                 keys ((done ++ [(k, scored ext qi info)]) ++ items) =
                 keys (done ++ (k, qi) :: items)).
      { intros ext done. unfold keys. rewrite <- app_assoc, !map_app. reflexivity. }
      destruct (IH g1) as [(snap & g' & evs & Hk & Hrep & Hrun) | (e & Hex & Hrun)].
      * left. exists ((k, info) :: snap), g', (evs1 ++ evs).
        split; [simpl; f_equal; exact Hk |].
        split.
        { intros k' info'. simpl.
          destruct (String.eqb_spec k k') as [<- | NE].
          - intros H. inversion H; subst. exists qi. split; [left; reflexivity | exact Rep].
          - intros H. destruct (Hrep _ _ H) as (qi' & Hin & R). eauto. }
        intros ext done s Hg Hqd ND. simpl. unfold bind at 1.
        rewrite (Step ext done s Hg Hqd ND).
        rewrite (Hrun ext (done ++ [(k, scored ext qi info)])
                   {| self := {| queueDict := (done ++ [(k, scored ext qi info)]) ++ items |};
                      rng := g1; trace := trace s ++ evs1 |} eq_refl eq_refl).
        -- simpl. rewrite String.eqb_refl.
           rewrite (scored_items_cons_other ext k info snap items (NDk done ND)).
           rewrite <- !app_assoc. reflexivity.
        -- rewrite KS. exact ND.
      * right. exists e. split; [apply Exists_cons_tl; exact Hex |].
        intros ext done s Hg Hqd ND. simpl. unfold bind at 1.
        rewrite (Step ext done s Hg Hqd ND).
        destruct (Hrun ext (done ++ [(k, scored ext qi info)])
                    {| self := {| queueDict := (done ++ [(k, scored ext qi info)]) ++ items |};
                       rng := g1; trace := trace s ++ evs1 |} eq_refl eq_refl)
          as (s' & -> & Hk).
        -- rewrite KS. exact ND.
        -- exists s'. split; [reflexivity |]. rewrite Hk. apply KS.
    + right. exists e. split; [apply Exists_cons_hd; exact NS |].
      intros ext done s Hg Hqd ND.
      exists (moved s g1 evs1). simpl. unfold bind at 1.
      unfold score_and_store, bind at 1. simpl. rewrite (Hq ext s Hg).
      split; [reflexivity |]. simpl. rewrite Hqd. reflexivity.
Qed.

End ScoringLoop.

Section Scoring.
Import MockDirector.

Lemma dict_get_keys {V} (k : string) (d : list (string * V)) :
  In k (keys d) <-> exists v, dict_get k d = Some v.
Proof.
  induction d as [| [k' v'] d IH]; simpl.
  - split; [intros [] | intros [v H]; discriminate].
  - destruct (String.eqb_spec k' k) as [-> | NE].
    + split; eauto.
    + rewrite IH. split; [intros [E | H]; [congruence | exact H] | auto].
Qed.


Lemma score_key_scored ext k qi info :
  score_key (k, scored ext qi info) =
  Return (PyNum.round (exact_score ext qi info) 2).
Proof.
  unfold score_key, scored. simpl.
  rewrite lookup_insert_ne by discriminate.
  rewrite lookup_insert_eq. reflexivity.
Qed.

Lemma scored_items_get ext snap items k qi info :
  List.NoDup (keys items) ->
  dict_get k items = Some qi -> dict_get k snap = Some info ->
  dict_get k (scored_items ext snap items) = Some (scored ext qi info).
Proof.
  intros ND Hq Hs.
  apply dict_get_In; [rewrite scored_items_keys; exact ND |].
  apply dict_get_In in Hq; [| exact ND].
  unfold scored_items. apply in_map_iff. exists (k, qi). simpl.
  rewrite Hs. auto.
Qed.

(** The whole method: it returns with the ranking of the scored
    queues, or the loop raises and the dictionary keeps its keys. *)
Lemma computeQueueScores_cases (qd : list (string * QueueInfo)) (g : random.State) :
  List.NoDup (keys qd) ->
  (exists snap g' evs,
      keys snap = keys qd /\
      (forall k info, dict_get k snap = Some info ->
         exists qinfo, In (k, qinfo) qd /\ reported qinfo info) /\
      forall ext (s : Sys Self),
        rng s = g -> queueDict (self s) = qd ->
        _computeQueueScores ext s =
        (Return tt,
         {| self := {| queueDict := ranking ext snap qd |};
            rng := g'; trace := trace s ++ evs |})) \/
  (exists e,
      Exists (fun kv => ~ scorable (snd kv)) qd /\
      forall ext (s : Sys Self),
        rng s = g -> queueDict (self s) = qd ->
        exists s',
          _computeQueueScores ext s = (Raise e, s') /\
          keys (queueDict (self s')) = keys qd).
Proof.
  intros ND.
  destruct (score_loop qd g) as [(snap & g' & evs & Hk & Hrep & Hrun) | (e & Hex & Hrun)].
  - left. exists snap, g', evs. split; [exact Hk |]. split; [exact Hrep |].
    intros ext s Hg Hqd.
    unfold _computeQueueScores, bind at 1. unfold get_self at 1.
    unfold bind at 1. rewrite Hqd.
    rewrite (Hrun ext [] s Hg Hqd ND). simpl.
    unfold bind at 1. unfold get_self at 1. simpl.
    assert (F : Forall (fun a => exists k, score_key a = Return k)
                       (scored_items ext snap qd)).
    { unfold scored_items. apply List.Forall_forall. intros kv' H.
      apply in_map_iff in H. destruct H as ([k qi] & <- & Hin). simpl.
      assert (Hs : In k (keys snap)) by (rewrite Hk; apply (in_map fst _ _ Hin)).
      apply dict_get_keys in Hs. destruct Hs as [info ->].
      rewrite score_key_scored. eauto. }
    unfold bind at 1, lift.
    rewrite (sorted_total score_key PyNum.Qltb 0%Q _ F).
    unfold set_self. simpl. fold (ranking ext snap qd).
    rewrite dict_of_items; [reflexivity |].
    apply sort_stable_keys_NoDup. rewrite scored_items_keys. exact ND.
  - right. exists e. split; [exact Hex |]. intros ext s Hg Hqd.
    destruct (Hrun ext [] s Hg Hqd ND) as (s' & E & Hk').
    exists s'. split; [| exact Hk'].
    unfold _computeQueueScores, bind at 1. unfold get_self at 1.
    unfold bind at 1. rewrite Hqd, E. reflexivity.
Qed.

(** Where two queues stand in the ranking. *)
Lemma ranking_ranked_before ext snap qd p q qp qq ip iq :
  List.NoDup (keys qd) ->
  dict_get p qd = Some qp -> dict_get q qd = Some qq -> p <> q ->
  dict_get p snap = Some ip -> dict_get q snap = Some iq ->
  let sp := PyNum.round (exact_score ext qp ip) 2 in
  let sq := PyNum.round (exact_score ext qq iq) 2 in
  ranked_before p q (ranking ext snap qd) <->
  (sp < sq)%Q \/ ((sp == sq)%Q /\ ranked_before p q qd).
Proof.
  intros ND Hp Hq NE Sp Sq sp sq. unfold ranking.
  rewrite (ranked_before_sort_stable _ _ Qltb_asym Qltb_cotrans _ p q
             (scored ext qp ip) (scored ext qq iq));
    [| rewrite scored_items_keys; exact ND
     | apply scored_items_get; assumption
     | apply scored_items_get; assumption
     | exact NE].
  unfold key_or. rewrite !score_key_scored. fold sp sq.
  rewrite Qltb_lt, Qltb_ge.
  unfold ranked_before.
  rewrite !(position_keys _ (scored_items ext snap qd) qd (scored_items_keys _ _ _)).
  split.
  - intros [H | [H1 H2]]; [left; exact H |].
    destruct (Qlt_le_dec sp sq) as [L | L]; [left; exact L | right].
    split; [lra | exact H2].
  - intros [H | [H1 H2]]; [left; exact H | right]. split; [lra | exact H2].
Qed.

End Scoring.

(** ** Variant B: the composite score and the ranking *)

Section VariantB.
Import MockDirector.


Lemma exact_score_mono ext ext' qi info site :
  Site qi = Some site ->
  (co2_of ext site <= co2_of ext' site)%Q ->
  (exact_score ext qi info <= exact_score ext' qi info)%Q.
Proof.
  intros HS H. unfold exact_score, spec_score. rewrite HS. simpl.
  apply Qplus_le_compat; [| apply Qle_refl].
  apply Qplus_le_compat; [| apply Qle_refl].
  apply Qmult_le_compat_r; [exact H | discriminate].
Qed.

Lemma exact_score_comp ext ext' qi info site :
  Site qi = Some site ->
  (co2_of ext' site == co2_of ext site)%Q ->
  (exact_score ext' qi info == exact_score ext qi info)%Q.
Proof.
  intros HS H. unfold exact_score, spec_score. rewrite HS. simpl.
  rewrite H. reflexivity.
Qed.

End VariantB.



(** C8. Raising the CO2 value of queue [q] with everything else fixed
    never improves its Variant-B rank: a queue [p] whose own CO2 value is
    unchanged and that was ranked before [q] is still ranked before it. *)
Theorem variantB_co2_monotone
    (ext ext' : gmap string (gmap string Q)) (s s1 : Sys MockDirector.Self)
    (p q : string) (qp qq : QueueInfo) (site_p site_q : string) :
  List.NoDup (keys (MockDirector.queueDict (self s))) ->
  dict_get p (MockDirector.queueDict (self s)) = Some qp ->
  dict_get q (MockDirector.queueDict (self s)) = Some qq ->
  p <> q ->
  Site qp = Some site_p ->
  Site qq = Some site_q ->
  (MockDirector.co2_of ext site_q <= MockDirector.co2_of ext' site_q)%Q ->
  (MockDirector.co2_of ext' site_p == MockDirector.co2_of ext site_p)%Q ->
  MockDirector._computeQueueScores ext s = (Return tt, s1) ->
  exists s2,
    MockDirector._computeQueueScores ext' s = (Return tt, s2) /\
    (ranked_before p q (MockDirector.queueDict (self s1)) ->
     ranked_before p q (MockDirector.queueDict (self s2))).
Proof.
  intros ND Hp Hq NE HSp HSq Hup Hsame Hrun1.
  destruct (computeQueueScores_cases _ (rng s) ND)
    as [(snap & g' & evs & Hk & _ & Hrun) | (e & _ & Hrun)]; cycle 1.
  { destruct (Hrun ext s eq_refl eq_refl) as (s' & E & _). congruence. }
  pose proof (Hrun ext s eq_refl eq_refl) as R1.
  pose proof (Hrun ext' s eq_refl eq_refl) as R2.
  rewrite R1 in Hrun1. inversion Hrun1; subst s1. clear Hrun1.
  eexists. split; [exact R2 |]. simpl.
  assert (Sp : exists ip, dict_get p snap = Some ip).
  { apply dict_get_keys. rewrite Hk. apply dict_get_keys. eauto. }
  assert (Sq : exists iq, dict_get q snap = Some iq).
  { apply dict_get_keys. rewrite Hk. apply dict_get_keys. eauto. }
  destruct Sp as [ip Sp], Sq as [iq Sq].
  rewrite (ranking_ranked_before ext snap _ p q qp qq ip iq ND Hp Hq NE Sp Sq).
  rewrite (ranking_ranked_before ext' snap _ p q qp qq ip iq ND Hp Hq NE Sp Sq).
  rewrite (round_comp _ _ 2 (exact_score_comp ext ext' qp ip site_p HSp Hsame)).
  pose proof (round_mono _ _ 2 (exact_score_mono ext ext' qq iq site_q HSq Hup)) as M.
  set (sp := PyNum.round (MockDirector.exact_score ext qp ip) 2) in *.
  set (sq := PyNum.round (MockDirector.exact_score ext qq iq) 2) in *.
  set (sq' := PyNum.round (MockDirector.exact_score ext' qq iq) 2) in *.
  intros [H | [H1 H2]].
  - left. lra.
  - destruct (Qlt_le_dec sp sq') as [L | L]; [left; exact L | right].
    split; [lra | exact H2].
Qed.


Lemma NoDup_two_queues : List.NoDup (keys Demo.two_queues).
Proof.
  unfold Demo.two_queues. simpl.
  apply List.NoDup_cons; [simpl; intros [H | []]; discriminate |].
  apply List.NoDup_cons; [intros [] | apply List.NoDup_nil].
Qed.


Lemma NoDup_mock_built :
  List.NoDup (keys (MockDirector.queueDict (self Demo.mock_built))).
Proof.
  apply NoDup_ListNoDup. apply (bool_decide_unpack _). vm_compute. exact I.
Qed.


(** The run of [test.py] from the generator [Demo.g0]: the sixteen
    queues are scored and ranked; the first is a short queue of CERN.ch,
    the last a long queue of FNAL.us. *)
Example mock_run_example :
  let out := MockDirector._computeQueueScores
               MockDirector._mockExternalMetrics Demo.mock_built in
  fst out = Return tt /\
  length (MockDirector.queueDict (self (snd out))) = 16%nat /\
  head (keys (MockDirector.queueDict (self (snd out))))
  = Some "CERN.ch-ce1.cern-short"%string /\
  last (keys (MockDirector.queueDict (self (snd out))))
  = Some "FNAL.us-ce2.fnal-long"%string /\
  forallb (fun kv =>
             match MockDirector.score_key kv with
             | Return _ => true
             | Raise _ => false
             end)
          (MockDirector.queueDict (self (snd out))) = true.
Proof. vm_compute. repeat split; reflexivity. Qed.

Lemma variantB_co2_monotone_witness :
  exists s2,
    MockDirector._computeQueueScores Demo.ext_raised (Demo.mock_state Demo.two_queues)
    = (Return tt, s2) /\
    (ranked_before "qa" "qb"
       (MockDirector.queueDict
          (self (snd (MockDirector._computeQueueScores Demo.ext_close
                        (Demo.mock_state Demo.two_queues))))) ->
     ranked_before "qa" "qb" (MockDirector.queueDict (self s2))).
Proof.
  apply (variantB_co2_monotone Demo.ext_close Demo.ext_raised
           (Demo.mock_state Demo.two_queues) _ "qa" "qb" Demo.qa Demo.qb "A.x" "B.x"
           NoDup_two_queues eq_refl eq_refl).
  - discriminate.
  - reflexivity.
  - reflexivity.
  - vm_compute. discriminate.
  - vm_compute. reflexivity.
  - vm_compute. reflexivity.
Defined.



(** ** The green director: annotation and ordering *)

Section Annotation.
Import GreenSiteDirector.

Lemma random_unit (g : random.State) :
  (0 <= fst (random.random g))%Q /\ (fst (random.random g) < 1)%Q.
Proof.
  unfold random.random. simpl.
  pose proof (Z.mod_pos_bound (random.word g) (2 ^ 53) eq_refl) as [L U].
  unfold Qle, Qlt. simpl. change (Z.pos (2 ^ 53)) with (2 ^ 53)%Z. lia.
Qed.

Lemma uniform_bounds (a b : Q) (g : random.State) :
  (a <= b)%Q ->
  (a <= fst (random.uniform a b g))%Q /\ (fst (random.uniform a b g) <= b)%Q.
Proof.
  intros H. unfold random.uniform.
  destruct (random.random g) as [u g'] eqn:E.
  pose proof (random_unit g) as [L U]. rewrite E in L, U. simpl in *.
  split; nra.
Qed.

Lemma synthesized_PUE (g : random.State) :
  let v := PyNum.round (fst (random.uniform 1.0 2.0 g)) 2 in
  (1.0 <= v)%Q /\ (v <= 2.0)%Q.
Proof.
  intros v. destruct (uniform_bounds 1.0 2.0 g) as [L U]; [discriminate |].
  split.
  - apply (Qle_trans _ (PyNum.round 1.0 2)); [discriminate |].
    apply round_mono. exact L.
  - apply (Qle_trans _ (PyNum.round 2.0 2)); [| discriminate].
    apply round_mono. exact U.
Qed.

Lemma synthesized_CI (g : random.State) :
  let v := PyNum.round (fst (random.uniform 100.0 500.0 g)) 1 in
  (100.0 <= v)%Q /\ (v <= 500.0)%Q.
Proof.
  intros v. destruct (uniform_bounds 100.0 500.0 g) as [L U]; [discriminate |].
  split.
  - apply (Qle_trans _ (PyNum.round 100.0 1)); [discriminate |].
    apply round_mono. exact L.
  - apply (Qle_trans _ (PyNum.round 500.0 1)); [| discriminate].
    apply round_mono. exact U.
Qed.

(** Step 3 on one mapping never raises, touches the generator only, and
    annotates. *)
Lemma annotate_params_spec (params : gmap string Q) (s : Sys Self) :
  exists params' g',
    annotate_params params s =
    (Return params', {| self := self s; rng := g'; trace := trace s |}) /\
    annotates params params'.
Proof.
  unfold annotate_params, annotates, synthesized.
  destruct (params !! "PUE") as [pue |] eqn:EP;
    destruct (params !! "CI") as [ci |] eqn:EC.
  - exists params, (rng s). run_monad. rewrite EC. destruct s; simpl.
    repeat split; auto.
  - eexists. eexists. run_monad. rewrite EC. simpl.
    split; [reflexivity |].
    split; [rewrite lookup_insert_ne by discriminate; exact EP |].
    split.
    + rewrite lookup_insert_eq. eexists. split; [reflexivity |].
      exact (synthesized_CI (rng s)).
    + intros key H1 H2. rewrite lookup_insert_ne by congruence. reflexivity.
  - eexists. eexists. run_monad.
    rewrite lookup_insert_ne by discriminate. rewrite EC.
    split; [reflexivity |].
    split.
    + rewrite lookup_insert_eq. eexists. split; [reflexivity |].
      exact (synthesized_PUE (rng s)).
    + split; [rewrite lookup_insert_ne by discriminate; exact EC |].
      intros key H1 H2. rewrite lookup_insert_ne by congruence. reflexivity.
  - eexists. eexists. run_monad.
    rewrite lookup_insert_ne by discriminate. rewrite EC. simpl.
    split; [reflexivity |].
    split.
    + rewrite lookup_insert_ne by discriminate. rewrite lookup_insert_eq.
      eexists. split; [reflexivity |].
      exact (synthesized_PUE (rng s)).
    + split.
      * rewrite lookup_insert_eq. eexists. split; [reflexivity |].
        exact (synthesized_CI (random.next (rng s))).
      * intros key H1 H2. rewrite !lookup_insert_ne by congruence. reflexivity.
Qed.

End Annotation.

Section Building.
Import GreenSiteDirector.

Lemma with_queueDict_twice (me : Self) d1 d2 :
  with_queueDict (with_queueDict me d1) d2 = with_queueDict me d2.
Proof. reflexivity. Qed.

Lemma with_queueDict_same (me : Self) : with_queueDict me (queueDict me) = me.
Proof. destruct me; reflexivity. Qed.

(** Step 3 on the queue at the head of the items still to do. *)
Lemma annotate_queue_spec (k : string) (qi : QueueInfo)
    (done rest : list (string * QueueInfo)) (s : Sys Self) :
  queueDict (self s) = done ++ (k, qi) :: rest ->
  ~ In k (keys done) ->
  exists kv' g',
    annotate_queue (k, qi) s =
    (Return tt,
     {| self := with_queueDict (self s) (done ++ kv' :: rest);
        rng := g'; trace := trace s |}) /\
    annotated (k, qi) kv'.
Proof.
  intros Hqd Hk. unfold annotate_queue. cbn [fst snd].
  destruct (annotate_params_spec (default ∅ (ParametersDict qi)) s)
    as (params' & g' & E & A).
  unfold bind at 1. rewrite E.
  destruct (ParametersDict qi) as [params |] eqn:EP.
  - exists (k, with_params qi params'), g'. split.
    + unfold set_queue, set_queueDict. run_monad. rewrite Hqd.
      rewrite dict_set_middle by exact Hk. reflexivity.
    + split; [reflexivity |]. simpl. rewrite EP. eauto.
  - exists (k, qi), g'. split.
    + unfold ret. rewrite <- Hqd, with_queueDict_same. reflexivity.
    + split; [reflexivity |]. simpl. rewrite EP. reflexivity.
Qed.

(** The loop of step 3: it never raises, keeps the order of the queues
    and annotates each of them. *)
Lemma annotate_loop (items : list (string * QueueInfo)) :
  forall (done : list (string * QueueInfo)) (s : Sys Self),
    queueDict (self s) = done ++ items ->
    List.NoDup (keys (done ++ items)) ->
    exists items' g',
      for_each annotate_queue items s =
      (Return tt,
       {| self := with_queueDict (self s) (done ++ items');
          rng := g'; trace := trace s |}) /\
      Forall2 annotated items items'.
Proof.
  induction items as [| [k qi] items IH]; intros done s Hqd ND.
  - exists [], (rng s). split; [| constructor].
    simpl. unfold ret. rewrite <- Hqd, with_queueDict_same. destruct s; reflexivity.
  - assert (Hk : ~ In k (keys done)).
    { unfold keys in ND. rewrite map_app in ND. simpl in ND.
      apply NoDup_remove_2 in ND. rewrite in_app_iff in ND. tauto. }
    destruct (annotate_queue_spec k qi done items s Hqd Hk) as (kv' & g1 & E & A).
    simpl. unfold bind at 1. rewrite E.
    destruct (IH (done ++ [kv'])
                {| self := with_queueDict (self s) (done ++ kv' :: items);
                   rng := g1; trace := trace s |})
      as (items' & g' & E' & F).
    + simpl. rewrite <- app_assoc. reflexivity.
    + destruct A as [A _]. destruct kv' as [k' qi']. simpl in A. subst k'.
      unfold keys in *. rewrite <- app_assoc, !map_app in *. exact ND.
    + exists (kv' :: items'), g'. split; [| constructor; assumption].
      rewrite E'. simpl. rewrite <- app_assoc. reflexivity.
Qed.

Lemma Forall2_annotated_keys items items' :
  Forall2 annotated items items' -> keys items' = keys items.
Proof.
  induction 1 as [| kv kv' l l' [A _] F IH]; simpl; [reflexivity |].
  rewrite A, IH. reflexivity.
Qed.

(** *** The order of the keys *)





Lemma pue_ci_key_Return (kv : string * QueueInfo) (pue ci : Q) :
  pue_ci_key kv = Return (pue, ci) <->
  exists params,
    ParametersDict (snd kv) = Some params /\
    params !! "PUE" = Some pue /\ params !! "CI" = Some ci.
Proof.
  unfold pue_ci_key, item.
  destruct (ParametersDict (snd kv)) as [params |]; cycle 1.
  { split; [discriminate | intros (? & E & _); discriminate]. }
  destruct (params !! "PUE") as [p |] eqn:E1; cycle 1.
  { split; [discriminate | intros (? & E & E1' & _); congruence]. }
  destruct (params !! "CI") as [c |] eqn:E2; cycle 1.
  { split; [discriminate | intros (? & E & _ & E2'); congruence]. }
  split.
  - intros H. inversion H; subst. exists params. auto.
  - intros (? & E & E1' & E2'). congruence.
Qed.

Lemma pue_ci_key_missing (kv : string * QueueInfo) :
  ParametersDict (snd kv) = None ->
  pue_ci_key kv = Raise (KeyError "ParametersDict").
Proof. unfold pue_ci_key. intros ->. reflexivity. Qed.

End Building.



(** ** The green director: [_buildQueueDict] *)


Section BuildQueueDict.
Import GreenSiteDirector.

Variable dirac : Dirac.
Variables sites ceNames types tagList : option (list string).

Abbreviation args := (catalog_args sites ceNames types tagList).
Abbreviation body := (GreenSiteDirector.body dirac sites ceNames types tagList).

(** With the resources module in place, the method is the [try] block
    with its handler. *)
Lemma buildQueueDict_try (s : Sys Self) (rm : ResourcesModule) :
  resourcesModule (self s) = Some rm ->
  _buildQueueDict dirac sites ceNames types tagList s =
  match body s with
  | (Return r, s1) => (Return r, s1)
  | (Raise e, s1) => (Return (S_OK tt), moved s1 (rng s1) [swallowed e])
  end.
Proof.
  intros Hrm. unfold GreenSiteDirector.body, started, _buildQueueDict.
  cbv [bind ret lift emit log with_rng get_self set_self try_except].
  cbn [self rng trace]. rewrite Hrm.
  destruct (build_body _ _ _ _ _ _ _ _) as [[r | e] s1]; reflexivity.
Qed.

Lemma body_catalog_raises (s : Sys Self) (rm : ResourcesModule) (e : exn) :
  resourcesModule (self s) = Some rm ->
  getQueues rm (args (self s)) = Raise e ->
  body s = (Raise e, moved (started s) (rng s) [Call_getQueues (vo (self s))]).
Proof.
  intros Hrm Hq. unfold GreenSiteDirector.body, started, moved, catalog_args in *. run_green.
  rewrite Hrm. cbn. rewrite Hq. reflexivity.
Qed.

Lemma body_catalog_error (s : Sys Self) (rm : ResourcesModule) (msg : string) :
  resourcesModule (self s) = Some rm ->
  getQueues rm (args (self s)) = Return (S_ERROR msg) ->
  body s =
  (Return (S_ERROR msg),
   moved (started s) (rng s)
         [Call_getQueues (vo (self s));
          Log error (ErrorMessage "Failed to get queues:" msg)]).
Proof.
  intros Hrm Hq. unfold GreenSiteDirector.body, started, moved, catalog_args in *. run_green.
  rewrite Hrm. cbn. rewrite Hq. cbn. rewrite <- !app_assoc. reflexivity.
Qed.

Lemma body_resolution_raises (s : Sys Self) (rm : ResourcesModule)
    (value : SiteDict) (cache : gmap string CEHandle) (e : exn) :
  resourcesModule (self s) = Some rm ->
  getQueues rm (args (self s)) = Return (S_OK value) ->
  getQueuesResolved dirac (resolve_args (self s) value) = (Raise e, cache) ->
  body s =
  (Raise e,
   {| self := with_queueCECache (self s) cache; rng := rng s;
      trace := trace (started s) ++
               [Call_getQueues (vo (self s)); Call_getQueuesResolved] |}).
Proof.
  intros Hrm Hq Hr. unfold GreenSiteDirector.body, started, catalog_args, resolve_args in *. run_green.
  rewrite Hrm. cbn. rewrite Hq. cbn. rewrite Hr. cbn.
  rewrite <- !app_assoc. reflexivity.
Qed.

(** After a successful resolution: the queues are annotated in the
    order of the resolution, then sorted, unless a key is missing. *)
Lemma body_resolved (s : Sys Self) (rm : ResourcesModule)
    (value : SiteDict) (cache : gmap string CEHandle)
    (resolved : list (string * QueueInfo)) :
  resourcesModule (self s) = Some rm ->
  getQueues rm (args (self s)) = Return (S_OK value) ->
  getQueuesResolved dirac (resolve_args (self s) value) = (Return (S_OK resolved), cache) ->
  List.NoDup (keys resolved) ->
  exists resolved' g',
    Forall2 annotated resolved resolved' /\
    let calls := trace (started s) ++
                 [Call_getQueues (vo (self s)); Call_getQueuesResolved] in
    let me := with_queueCECache (self s) cache in
    body s =
    match sorted pue_ci_key tuple_lt resolved' with
    | Raise e =>
        (Raise e, {| self := with_queueDict me resolved'; rng := g'; trace := calls |})
    | Return ranked =>
        (Return (S_OK tt),
         {| self := with_queueDict me ranked; rng := g';
            trace := calls ++ [Log always (LoadedQueues (length ranked))] |})
    end.
Proof.
  intros Hrm Hq Hr ND.
  destruct (annotate_loop resolved []
              {| self := with_queueDict (with_queueCECache (self s) cache) resolved;
                 rng := rng s;
                 trace := ((trace s ++
                            [Log always (Text "Building queue dictionary (no VO argument)...")])
                           ++ [Call_getQueues (vo (self s))])
                          ++ [Call_getQueuesResolved] |}
              eq_refl ND) as (resolved' & g' & E & F).
  exists resolved', g'. split; [exact F |]. intros calls me.
  unfold GreenSiteDirector.body, started, catalog_args, resolve_args in *. run_green.
  rewrite Hrm. cbn. rewrite Hq. cbn. rewrite Hr. cbn.
  rewrite E. cbn.
  destruct (sorted pue_ci_key tuple_lt resolved') as [ranked | e] eqn:Es.
  - rewrite (dict_of_items ranked); [rewrite <- !app_assoc; reflexivity |].
    destruct (sorted_Return _ _ (0%Q, 0%Q) _ _ Es) as [-> _].
    apply sort_stable_keys_NoDup. rewrite (Forall2_annotated_keys _ _ F). exact ND.
  - rewrite <- !app_assoc. reflexivity.
Qed.

End BuildQueueDict.

Lemma sorted_raises {A K : Type} (key : A -> Outcome K) (lt : K -> K -> bool)
    (l : list A) :
  Exists (fun a => exists e, key a = Raise e) l ->
  exists e, sorted key lt l = Raise e.
Proof.
  unfold sorted. induction 1 as [a l [e He] | a l _ [e IH]]; simpl.
  - rewrite He. eauto.
  - destruct (key a) as [k |]; [| eauto].
    destruct (decorate key l) as [kl |]; [discriminate | eauto].
Qed.

Lemma annotated_keeps_missing (l l' : list (string * QueueInfo)) :
  Forall2 GreenSiteDirector.annotated l l' ->
  Exists (fun kv => ParametersDict (snd kv) = None) l ->
  Exists (fun kv => exists e, GreenSiteDirector.pue_ci_key kv = Raise e) l'.
Proof.
  induction 1 as [| kv kv' l l' [_ A] F IH]; intros H; inversion H; subst.
  - apply Exists_cons_hd. exists (KeyError "ParametersDict").
    apply pue_ci_key_missing. match goal with E : ParametersDict _ = None |- _ => rewrite E in A end.
    rewrite A. assumption.
  - apply Exists_cons_tl. auto.
Qed.

(** C10. With the resources module in place, [_buildQueueDict] never
    raises. An exception raised in the [try] block, at whatever step, is
    caught: the method returns [S_OK], the same result as a run without
    exception, and the object is left as it was when the exception was
    raised. So when the catalog call or the resolution raises, the queue
    dictionary is the old one, and when the sort raises (a queue without
    parameter mapping), it is the resolved dictionary, annotated and in
    resolution order. *)
Theorem buildQueueDict_swallows_exceptions
    (dirac : Dirac) (siteNames ces ceTypes tags : option (list string))
    (s : Sys GreenSiteDirector.Self) (rm : ResourcesModule) :
  GreenSiteDirector.resourcesModule (self s) = Some rm ->
  let run := GreenSiteDirector._buildQueueDict dirac siteNames ces ceTypes tags s in
  let catalog :=
    getQueues rm (GreenSiteDirector.catalog_args siteNames ces ceTypes tags (self s)) in
  let resolution value :=
    getQueuesResolved dirac (GreenSiteDirector.resolve_args (self s) value) in
  (exists r s', run = (Return r, s')) /\
  (forall e s1,
      GreenSiteDirector.body dirac siteNames ces ceTypes tags s = (Raise e, s1) ->
      run = (Return (S_OK tt),
             {| self := self s1; rng := rng s1;
                trace := trace s1 ++ [GreenSiteDirector.swallowed e] |})) /\
  (forall s1,
      GreenSiteDirector.body dirac siteNames ces ceTypes tags s = (Return (S_OK tt), s1) ->
      run = (Return (S_OK tt), s1)) /\
  (forall e,
      catalog = Raise e ->
      exists s', run = (Return (S_OK tt), s') /\ self s' = self s) /\
  (forall value cache e,
      catalog = Return (S_OK value) ->
      resolution value = (Raise e, cache) ->
      exists s', run = (Return (S_OK tt), s') /\
                 GreenSiteDirector.queueDict (self s') =
                 GreenSiteDirector.queueDict (self s)) /\
  (forall value cache resolved,
      catalog = Return (S_OK value) ->
      resolution value = (Return (S_OK resolved), cache) ->
      List.NoDup (keys resolved) ->
      Exists (fun kv => ParametersDict (snd kv) = None) resolved ->
      exists s', run = (Return (S_OK tt), s') /\
                 Forall2 GreenSiteDirector.annotated resolved
                         (GreenSiteDirector.queueDict (self s'))).
Proof.
  intros Hrm run catalog resolution.
  pose proof (buildQueueDict_try dirac siteNames ces ceTypes tags s rm Hrm) as T.
  fold run in T.
  split.
  { rewrite T. destruct (GreenSiteDirector.body _ _ _ _ _ _) as [[r | e] s1]; eauto. }
  split.
  { intros e s1 E. rewrite T, E. reflexivity. }
  split.
  { intros s1 E. rewrite T, E. reflexivity. }
  split.
  { intros e E.
    rewrite T, (body_catalog_raises dirac siteNames ces ceTypes tags s rm e Hrm E).
    eexists. split; reflexivity. }
  split.
  { intros value cache e E1 E2.
    rewrite T, (body_resolution_raises dirac siteNames ces ceTypes tags s rm
                  value cache e Hrm E1 E2).
    eexists. split; reflexivity. }
  intros value cache resolved E1 E2 ND Hex.
  destruct (body_resolved dirac siteNames ces ceTypes tags s rm value cache resolved
              Hrm E1 E2 ND) as (resolved' & g' & F & E).
  cbv zeta in E.
  destruct (sorted_raises _ GreenSiteDirector.tuple_lt _
              (annotated_keeps_missing _ _ F Hex)) as [e Es].
  rewrite Es in E. rewrite T, E.
  eexists. split; [reflexivity | exact F].
Qed.

Lemma annotated_has_keys (l l' : list (string * QueueInfo)) :
  Forall2 GreenSiteDirector.annotated l l' ->
  Forall (fun kv => ParametersDict (snd kv) <> None) l ->
  Forall (fun kv => exists k, GreenSiteDirector.pue_ci_key kv = Return k) l'.
Proof.
  induction 1 as [| kv kv' l l' [_ A] F IH]; intros H; inversion H; subst;
    constructor; auto.
  destruct (ParametersDict (snd kv)) as [params |]; [| congruence].
  destruct A as (params' & E & S1 & S2 & _).
  unfold GreenSiteDirector.synthesized in S1, S2.
  assert (P : exists pue, params' !! "PUE" = Some pue).
  { destruct (params !! "PUE"); [eauto | destruct S1 as (v & ? & _); eauto]. }
  assert (C : exists ci, params' !! "CI" = Some ci).
  { destruct (params !! "CI"); [eauto | destruct S2 as (v & ? & _); eauto]. }
  destruct P as [pue P], C as [ci C]. exists (pue, ci).
  apply pue_ci_key_Return. exists params'. rewrite E. auto.
Qed.

(** A whole run on queues that all carry a parameter mapping: the
    resolved queues are annotated, then ordered by (PUE, CI). *)
Lemma buildQueueDict_sorts
    (dirac : Dirac) (siteNames ces ceTypes tags : option (list string))
    (s : Sys GreenSiteDirector.Self) (rm : ResourcesModule)
    (value : SiteDict) (cache : gmap string CEHandle)
    (resolved : list (string * QueueInfo)) :
  GreenSiteDirector.resourcesModule (self s) = Some rm ->
  getQueues rm (GreenSiteDirector.catalog_args siteNames ces ceTypes tags (self s))
  = Return (S_OK value) ->
  getQueuesResolved dirac (GreenSiteDirector.resolve_args (self s) value)
  = (Return (S_OK resolved), cache) ->
  List.NoDup (keys resolved) ->
  Forall (fun kv => ParametersDict (snd kv) <> None) resolved ->
  exists resolved' s',
    Forall2 GreenSiteDirector.annotated resolved resolved' /\
    GreenSiteDirector._buildQueueDict dirac siteNames ces ceTypes tags s
    = (Return (S_OK tt), s') /\
    GreenSiteDirector.queueDict (self s') =
    sort_stable (key_or (0%Q, 0%Q) GreenSiteDirector.pue_ci_key)
                GreenSiteDirector.tuple_lt resolved'.
Proof.
  intros Hrm E1 E2 ND HP.
  destruct (body_resolved dirac siteNames ces ceTypes tags s rm value cache resolved
              Hrm E1 E2 ND) as (resolved' & g' & F & E).
  cbv zeta in E.
  rewrite (sorted_total _ _ (0%Q, 0%Q) _ (annotated_has_keys _ _ F HP)) in E.
  exists resolved'. eexists. split; [exact F |].
  rewrite (buildQueueDict_try dirac siteNames ces ceTypes tags s rm Hrm), E.
  split; reflexivity.
Qed.

(** ** The listing agent *)


Section Listing.
Import SiteInfoAgent.

(** One queue: the loop body never raises, leaves the object alone and
    adds the lines of the queue. *)
Lemma report_queue_spec (kv : string * QueueInfo) (s : Sys Self) :
  report_queue kv s =
  (Return tt, moved s (snd (queue_lines kv (rng s))) (fst (queue_lines kv (rng s)))).
Proof.
  unfold report_queue, probe, queue_lines, header_lines, answer_line, moved,
    call_available.
  cbv [bind ret lift emit log with_rng get_self set_self try_except].
  cbn [self rng trace fst snd].
  destruct (CE (snd kv)) as [ce |]; cbn.
  - destruct (available ce (rng s)) as [[[info v | msg] | e] g'];
      cbn; rewrite <- !app_assoc; reflexivity.
  - rewrite <- !app_assoc. reflexivity.
Qed.

Lemma report_loop (value : list (string * QueueInfo)) :
  forall s : Sys Self,
    for_each report_queue value s =
    (Return tt,
     moved s (snd (cycle_lines value (rng s))) (fst (cycle_lines value (rng s)))).
Proof.
  induction value as [| kv value IH]; intros s.
  - simpl. unfold ret, moved. rewrite app_nil_r. destruct s; reflexivity.
  - simpl. unfold bind at 1. rewrite report_queue_spec, IH.
    destruct (queue_lines kv (rng s)) as [l1 g1]. simpl.
    destruct (cycle_lines value g1) as [l2 g2]. simpl.
    unfold moved. simpl. rewrite <- app_assoc. reflexivity.
Qed.

End Listing.

(** C5. When the catalog call returns an error, the cycle stops there:
    [_buildQueueDict] of the green director and [execute] of the agent
    return that same error, the object (and so its queue dictionary) is
    left as it was, and the trace shows the catalog call and the error
    line only: no resolution, no probe of a computing element. *)
Theorem catalog_error_short_circuits
    (dirac : Dirac) (siteNames ces ceTypes tags : option (list string))
    (sg : Sys GreenSiteDirector.Self) (rm : ResourcesModule)
    (sa : Sys SiteInfoAgent.Self) (msg : string) :
  (GreenSiteDirector.resourcesModule (self sg) = Some rm ->
   getQueues rm (GreenSiteDirector.catalog_args siteNames ces ceTypes tags (self sg))
   = Return (S_ERROR msg) ->
   GreenSiteDirector._buildQueueDict dirac siteNames ces ceTypes tags sg =
   (Return (S_ERROR msg),
    {| self := self sg; rng := rng sg;
       trace := trace sg ++
                [Log always (Text "Building queue dictionary (no VO argument)...");
                 Call_getQueues (GreenSiteDirector.vo (self sg));
                 Log error (ErrorMessage "Failed to get queues:" msg)] |})) /\
  (getQueues (Resources dirac) (SiteInfoAgent.catalog_args (self sa))
   = Return (S_ERROR msg) ->
   SiteInfoAgent.execute dirac sa =
   (Return (S_ERROR msg),
    {| self := self sa; rng := rng sa;
       trace := trace sa ++
                [Log always (Text "=== [SiteInfoAgent] Cycle started ===");
                 Call_getQueues (default ""%string (SiteInfoAgent.vo (self sa)));
                 Log error (ErrorMessage "Failed to get queues from CS" msg)] |})).
Proof.
  split.
  - intros Hrm Hq.
    rewrite (buildQueueDict_try dirac siteNames ces ceTypes tags sg rm Hrm).
    rewrite (body_catalog_error dirac siteNames ces ceTypes tags sg rm msg Hrm Hq).
    unfold moved, GreenSiteDirector.started. cbn. rewrite <- !app_assoc. reflexivity.
  - intros Hq. unfold SiteInfoAgent.catalog_args in Hq. run_agent.
    rewrite Hq. cbn. rewrite <- !app_assoc. reflexivity.
Qed.

(** C6. Once the queues are resolved, the cycle of the agent completes
    with [S_OK] whatever the computing elements answer: no probe failure
    is raised. Every resolved queue is in the queue dictionary and is
    reported; what is reported for a queue depends on that queue and on
    the answer of its own CE only: the live status when the CE answers,
    a warning when it reports an error or raises. *)
Theorem probe_failures_are_contained
    (dirac : Dirac) (s : Sys SiteInfoAgent.Self) (siteDict : SiteDict)
    (cache : gmap string CEHandle) (value : list (string * QueueInfo)) :
  getQueues (Resources dirac) (SiteInfoAgent.catalog_args (self s))
  = Return (S_OK siteDict) ->
  siteDict <> ∅ ->
  getQueuesResolved dirac (SiteInfoAgent.resolve_args siteDict)
  = (Return (S_OK value), cache) ->
  SiteInfoAgent.execute dirac s =
  (Return (S_OK tt),
   {| self := SiteInfoAgent.with_queueDict
                (SiteInfoAgent.with_queueCECache (self s) cache) value;
      rng := snd (SiteInfoAgent.cycle_lines value (rng s));
      trace := trace s ++
               [Log always (Text "=== [SiteInfoAgent] Cycle started ===");
                Call_getQueues (default ""%string (SiteInfoAgent.vo (self s)));
                Call_getQueuesResolved] ++
               fst (SiteInfoAgent.cycle_lines value (rng s)) ++
               [Log always (Text "=== [SiteInfoAgent] Cycle complete ===")] |}) /\
  (forall kv rest g,
      SiteInfoAgent.cycle_lines (kv :: rest) g =
      (fst (SiteInfoAgent.queue_lines kv g) ++
       fst (SiteInfoAgent.cycle_lines rest (snd (SiteInfoAgent.queue_lines kv g))),
       snd (SiteInfoAgent.cycle_lines rest (snd (SiteInfoAgent.queue_lines kv g))))) /\
  (forall kv ce g,
      CE (snd kv) = Some ce ->
      let ceName := default "UnknownCE"%string (CEName (snd kv)) in
      let lines := fst (SiteInfoAgent.queue_lines kv g) in
      match fst (available ce g) with
      | Return (AvailOK info _) =>
          lines = SiteInfoAgent.header_lines kv ++
                  [Call_available (name ce);
                   Log always (LiveStatus (RunningJobs info) (WaitingJobs info)
                                          (MaxTotalJobs info))]
      | Return (AvailError m) =>
          lines = SiteInfoAgent.header_lines kv ++
                  [Call_available (name ce); Log warn (CEMessage ceName m)]
      | Raise e =>
          lines = SiteInfoAgent.header_lines kv ++
                  [Call_available (name ce); Log warn (CENotContacted ceName e)]
      end).
Proof.
  intros Hq Hne Hr. split; [| split].
  - unfold SiteInfoAgent.catalog_args, SiteInfoAgent.resolve_args in *. run_agent.
    rewrite Hq. cbn. rewrite bool_decide_eq_false_2 by exact Hne. cbn.
    rewrite Hr. cbn. rewrite report_loop. unfold moved. cbn.
    rewrite <- !app_assoc. reflexivity.
  - intros kv rest g. simpl.
    destruct (SiteInfoAgent.queue_lines kv g) as [l1 g1]. simpl.
    destruct (SiteInfoAgent.cycle_lines rest g1) as [l2 g2]. reflexivity.
  - intros kv ce g Hce ceName lines. unfold lines, SiteInfoAgent.queue_lines.
    rewrite Hce. destruct (available ce g) as [[[info v | m] | e] g']; reflexivity.
Qed.

(** C9, as the code has it. The community is the configured VO option
    or, without one, the community of the installation or, without that,
    ["biomed"]. Initialization fails with [S_ERROR] exactly when that
    string is empty and succeeds with [S_OK] exactly when it is not; with
    no VO option configured it is never empty, so initialization
    succeeds, with ["biomed"] when the installation has no community. *)
Theorem initialize_needs_nonempty_vo (dirac : Dirac) (s : Sys SiteInfoAgent.Self) :
  let v := SiteInfoAgent.am_getOption dirac "VO"
             (SiteInfoAgent.py_or (getVO dirac) "biomed") in
  (v = ""%string ->
   SiteInfoAgent.initialize dirac s =
   (Return (S_ERROR "No VO specified or found in CSGlobals"),
    {| self := SiteInfoAgent.with_vo (self s) v; rng := rng s; trace := trace s |})) /\
  (v <> ""%string ->
   SiteInfoAgent.initialize dirac s =
   (Return (S_OK tt),
    {| self := SiteInfoAgent.with_vo (self s) v; rng := rng s;
       trace := trace s ++ [Log always (Initialized v)] |})) /\
  (options dirac !! "VO" = None ->
   v <> ""%string /\ (getVO dirac = ""%string -> v = "biomed"%string)).
Proof.
  intros v. split; [| split].
  - intros E. run_agent. fold v. rewrite E. reflexivity.
  - intros NE. run_agent. fold v.
    destruct (String.eqb_spec v "") as [E | _]; [contradiction | reflexivity].
  - intros Hopt. unfold v, SiteInfoAgent.am_getOption, SiteInfoAgent.py_or.
    rewrite Hopt. simpl.
    destruct (String.eqb_spec (getVO dirac) "") as [E | NE].
    + split; [discriminate | reflexivity].
    + split; [exact NE | contradiction].
Qed.

(** ** The properties at concrete inputs *)



(** The ranking of the three queues: [q2] has the smallest PUE; [q1] and
    [q3] have the same PUE and CI and keep their order. *)
Example variantA_ranking_example :
  match sorted GreenSiteDirector.pue_ci_key GreenSiteDirector.tuple_lt Demo.three_queues with
  | Return ranked => keys ranked = ["q2"; "q1"; "q3"]%string
  | Raise _ => False
  end.
Proof. vm_compute. reflexivity. Qed.


Lemma catalog_error_short_circuits_witness :
  fst (GreenSiteDirector._buildQueueDict
         (Demo.dirac (Return (S_ERROR "unknown community")) (Return (S_OK [])) "" ∅)
         None None None None
         (Demo.green_state (Demo.catalog (Return (S_ERROR "unknown community")))
                           Demo.two_queues))
  = Return (S_ERROR "unknown community") /\
  fst (SiteInfoAgent.execute
         (Demo.dirac (Return (S_ERROR "unknown community")) (Return (S_OK [])) "" ∅)
         Demo.agent_state)
  = Return (S_ERROR "unknown community").
Proof.
  destruct (catalog_error_short_circuits
              (Demo.dirac (Return (S_ERROR "unknown community")) (Return (S_OK [])) "" ∅)
              None None None None
              (Demo.green_state (Demo.catalog (Return (S_ERROR "unknown community")))
                                Demo.two_queues)
              (Demo.catalog (Return (S_ERROR "unknown community")))
              Demo.agent_state "unknown community") as [G A].
  rewrite (G eq_refl eq_refl), (A eq_refl). split; reflexivity.
Defined.

Lemma sites_not_empty : Demo.sites <> ∅.
Proof.
  intros H. apply (f_equal (fun m : SiteDict => m !! "A.x")) in H.
  vm_compute in H. discriminate.
Qed.

Lemma probe_failures_are_contained_witness :
  fst (SiteInfoAgent.execute
         (Demo.dirac (Return (S_OK Demo.sites)) (Return (S_OK Demo.three_queues)) "" ∅)
         Demo.agent_state)
  = Return (S_OK tt) /\
  SiteInfoAgent.queueDict
    (self (snd (SiteInfoAgent.execute
                  (Demo.dirac (Return (S_OK Demo.sites))
                              (Return (S_OK Demo.three_queues)) "" ∅)
                  Demo.agent_state)))
  = Demo.three_queues.
Proof.
  destruct (probe_failures_are_contained
              (Demo.dirac (Return (S_OK Demo.sites)) (Return (S_OK Demo.three_queues)) "" ∅)
              Demo.agent_state Demo.sites ∅ Demo.three_queues
              eq_refl sites_not_empty eq_refl) as [E _].
  rewrite E. split; reflexivity.
Defined.

(** The report of that cycle: the live status for [q1], a warning for
    [q2], whose CE raises, and for [q3], whose CE reports an error. *)
Example probe_report_example :
  fst (SiteInfoAgent.cycle_lines Demo.three_queues Demo.g0) =
  SiteInfoAgent.header_lines ("q1"%string, Demo.queue "A.x" (Some (Demo.half_loaded "ce.a"))
                                             (Some (Demo.green_params 1.5 300))) ++
  [Call_available "ce.a"; Log always (LiveStatus 150 0 300)] ++
  SiteInfoAgent.header_lines ("q2"%string, Demo.queue "B.x" (Some (Demo.unreachable "ce.b"))
                                             (Some (Demo.green_params 1.2 300))) ++
  [Call_available "ce.b"; Log warn (CENotContacted "ce.b" (Exception "timeout"))] ++
  SiteInfoAgent.header_lines ("q3"%string, Demo.queue "C.x" (Some (Demo.refusing "ce.c"))
                                             (Some (Demo.green_params 1.5 300))) ++
  [Call_available "ce.c"; Log warn (CEMessage "ce.c" "no proxy")].
Proof. reflexivity. Qed.

(** C9 as the specification states it fails: with no VO option configured and
    no community of the installation, initialization succeeds, for the
    community ["biomed"]. *)
Lemma initialize_defaults_to_biomed :
  options (Demo.dirac (Return (S_OK Demo.sites)) (Return (S_OK [])) "" ∅) !! "VO" = None /\
  getVO (Demo.dirac (Return (S_OK Demo.sites)) (Return (S_OK [])) "" ∅) = ""%string /\
  SiteInfoAgent.initialize
    (Demo.dirac (Return (S_OK Demo.sites)) (Return (S_OK [])) "" ∅) Demo.agent_state
  = (Return (S_OK tt),
     {| self := SiteInfoAgent.with_vo SiteInfoAgent.__init__ "biomed";
        rng := Demo.g0;
        trace := [Log always (Initialized "biomed")] |}).
Proof. split; [reflexivity | split; reflexivity]. Qed.

Lemma initialize_needs_nonempty_vo_witness :
  options (Demo.dirac (Return (S_OK Demo.sites)) (Return (S_OK [])) "biomed"
                      (list_to_map [("VO"%string, ""%string)])) !! "VO"
  = Some ""%string /\
  fst (SiteInfoAgent.initialize
         (Demo.dirac (Return (S_OK Demo.sites)) (Return (S_OK [])) "biomed"
                     (list_to_map [("VO"%string, ""%string)]))
         Demo.agent_state)
  = Return (S_ERROR "No VO specified or found in CSGlobals").
Proof.
  split; [vm_compute; reflexivity |].
  pose proof (proj1 (initialize_needs_nonempty_vo
                       (Demo.dirac (Return (S_OK Demo.sites)) (Return (S_OK [])) "biomed"
                                   (list_to_map [("VO"%string, ""%string)]))
                       Demo.agent_state)) as H.
  cbv zeta in H. rewrite H; [reflexivity |]. vm_compute. reflexivity.
Defined.

Lemma buildQueueDict_swallows_exceptions_witness :
  GreenSiteDirector.resourcesModule
    (self (Demo.green_state (Demo.catalog (Raise (Exception "catalog unreachable")))
                            Demo.two_queues))
  = Some (Demo.catalog (Raise (Exception "catalog unreachable"))) /\
  exists s',
    GreenSiteDirector._buildQueueDict
      (Demo.dirac (Raise (Exception "catalog unreachable")) (Return (S_OK [])) "" ∅)
      None None None None
      (Demo.green_state (Demo.catalog (Raise (Exception "catalog unreachable")))
                        Demo.two_queues)
    = (Return (S_OK tt), s') /\
    GreenSiteDirector.queueDict (self s') = Demo.two_queues.
Proof.
  split; [reflexivity |].
  destruct (buildQueueDict_swallows_exceptions
              (Demo.dirac (Raise (Exception "catalog unreachable")) (Return (S_OK [])) "" ∅)
              None None None None
              (Demo.green_state (Demo.catalog (Raise (Exception "catalog unreachable")))
                                Demo.two_queues)
              (Demo.catalog (Raise (Exception "catalog unreachable"))) eq_refl)
    as (_ & _ & _ & C & _).
  destruct (C (Exception "catalog unreachable") eq_refl) as (s' & E & Hs).
  exists s'. split; [exact E |]. rewrite Hs. reflexivity.
Defined.

(** A queue without parameter mapping makes the sort raise: the method
    still returns [S_OK], and the dictionary stays in resolution order,
    [q1] before [q2], although [q2] has the smaller PUE. *)
Example buildQueueDict_unsorted_example :
  let out :=
    GreenSiteDirector._buildQueueDict
      (Demo.dirac (Return (S_OK Demo.sites)) (Return (S_OK Demo.with_bare_queue)) "" ∅)
      None None None None
      (Demo.green_state (Demo.catalog (Return (S_OK Demo.sites))) []) in
  fst out = Return (S_OK tt) /\
  keys (GreenSiteDirector.queueDict (self (snd out))) = ["q1"; "q2"; "q4"]%string /\
  last (trace (snd out))
  = Some (GreenSiteDirector.swallowed (KeyError "ParametersDict")).
Proof. vm_compute. repeat split; reflexivity. Qed.

(* ================================================================= *)
(** * Further properties of the code *)

(** ** The mock computing element and [run] of [test.py] *)

Section MockRun.
Import MockDirector.

Lemma randint_bounds (a b : Z) (g : random.State) :
  (a <= b)%Z ->
  (a <= fst (random.randint a b g) <= b)%Z /\
  snd (random.randint a b g) = random.next g.
Proof.
  intros H. unfold random.randint. simpl.
  pose proof (Z.mod_pos_bound (random.word g) (b - a + 1)) as B.
  split; [lia | reflexivity].
Qed.

Lemma MockCE_available (ce_name : string) (g : random.State) :
  exists running waiting,
    available (MockCE ce_name) g =
    (Return (AvailOK {| RunningJobs := running; WaitingJobs := waiting;
                        MaxTotalJobs := 300 |}
                     (300 - (running + waiting))%Z),
     random.next (random.next g)) /\
    (10 <= running <= 200)%Z /\ (0 <= waiting <= 50)%Z.
Proof.
  unfold MockCE. cbn [available].
  destruct (randint_bounds 10 200 g) as [B1 E1]; [lia |].
  destruct (random.randint 10 200 g) as [running g1]. simpl in B1, E1. subst g1.
  destruct (randint_bounds 0 50 (random.next g)) as [B2 E2]; [lia |].
  destruct (random.randint 0 50 (random.next g)) as [waiting g2]. simpl in B2, E2. subst g2.
  exists running, waiting. auto.
Qed.

Lemma MockCE_scorable (site ce_name : string) (ceName ceType queue : option string)
    (params : gmap string Q) (cpu : Q) :
  params !! "CPUTime" = Some cpu ->
  scorable {| Site := Some site; CEName := ceName; CEType := ceType;
              QueueName := queue; CE := Some (MockCE ce_name);
              ParametersDict := Some params |}.
Proof.
  intros H. exists site, (MockCE ce_name), params, cpu. repeat split; auto.
  intros g. destruct (MockCE_available ce_name g) as (r & w & E & _).
  eexists. eexists. eexists. split; [exact E |]. simpl. lia.
Qed.

End MockRun.

Section RunFacts.
Import MockDirector.

Lemma for_each_invariant {Self A : Type} (I : Sys Self -> Prop)
    (body : A -> @M Self unit) (l : list A) :
  (forall x s, In x l -> I s -> exists s', body x s = (Return tt, s') /\ I s') ->
  forall s, I s -> exists s', for_each body l s = (Return tt, s') /\ I s'.
Proof.
  induction l as [| x l IH]; intros Hb s Hs; simpl.
  - exists s. split; [reflexivity | exact Hs].
  - destruct (Hb x s (or_introl eq_refl) Hs) as (s1 & E1 & H1).
    destruct (IH (fun y s' Hy => Hb y s' (or_intror Hy)) s1 H1) as (s2 & E2 & H2).
    exists s2. unfold bind. rewrite E1. auto.
Qed.

Lemma dict_set_Forall {V : Type} (P : string * V -> Prop) (k : string) (v : V)
    (d : list (string * V)) :
  (forall k', P (k', v)) -> Forall P d -> Forall P (dict_set k v d).
Proof.
  intros Hv. induction 1 as [| [k' v'] d Hx F IH]; simpl.
  - constructor; [apply Hv | constructor].
  - destruct (String.eqb k' k); constructor; auto.
Qed.

Lemma buildMockQueueDict_queues (s : Sys Self) :
  Forall (fun kv => mock_queue (snd kv)) (queueDict (self s)) ->
  exists qd,
    _buildMockQueueDict s =
    (Return tt, {| self := {| queueDict := qd |}; rng := rng s; trace := trace s |}) /\
    Forall (fun kv => mock_queue (snd kv)) qd.
Proof.
  intros H.
  set (I := fun s' : Sys Self =>
              Forall (fun kv => mock_queue (snd kv)) (queueDict (self s')) /\
              rng s' = rng s /\ trace s' = trace s).
  assert (Hs : I s) by (split; auto).
  assert (R : exists s', _buildMockQueueDict s = (Return tt, s') /\ I s').
  { unfold _buildMockQueueDict. apply for_each_invariant; [| exact Hs].
    intros site s1 _ H1. apply for_each_invariant; [| exact H1].
    intros ce_num s2 _ H2. apply for_each_invariant; [| exact H2].
    intros q s3 _ (F3 & G3 & T3).
    eexists. split; [reflexivity |]. split; [| split; assumption].
    cbn [self queueDict]. apply dict_set_Forall; [| exact F3].
    intros k'. cbn [snd]. eexists. eexists. eexists. eexists.
    repeat split. }
  destruct R as (s' & E & F & G & T).
  destruct s' as [[qd] g tr]. simpl in *. subst.
  exists qd. split; [exact E | exact F].
Qed.

Lemma mock_queue_scorable (qinfo : QueueInfo) : mock_queue qinfo -> scorable qinfo.
Proof.
  intros (site & ce_name & params & cpu & HS & HN & HC & HP & Hcpu).
  destruct qinfo as [S N T Q' C P]. simpl in *. subst.
  apply (MockCE_scorable site ce_name _ _ _ params cpu Hcpu).
Qed.

Lemma scored_params_lookup (params : gmap string Q) (load score cpu : Q) :
  params !! "CPUTime" = Some cpu ->
  let params' := <["LoadFactor" := load]> (<["CompositeScore" := score]> params) in
  params' !! "CPUTime" = Some cpu /\
  params' !! "CompositeScore" = Some score /\
  params' !! "LoadFactor" = Some load.
Proof.
  intros H params'. unfold params'. split; [| split].
  - rewrite !lookup_insert_ne by discriminate. exact H.
  - rewrite lookup_insert_ne by discriminate. apply lookup_insert_eq.
  - apply lookup_insert_eq.
Qed.

(** A scored queue shows its values. *)
Lemma row_scored ext (k : string) (qi : QueueInfo) (info : CEInfo) (s : Sys Self) :
  mock_queue qi ->
  exists line, row (k, scored ext qi info) s = (Return line, s) /\
               shows (k, scored ext qi info) line.
Proof.
  intros (site & ce_name & params & cpu & HS & HN & HC & HP & Hcpu).
  destruct (scored_params_lookup params (PyNum.round (load_of info) 2)
              (PyNum.round (exact_score ext qi info) 2) cpu Hcpu) as (L1 & L2 & L3).
  eexists. split.
  - unfold row, scored. cbn [fst snd]. unfold with_params. cbn [Site CEName ParametersDict].
    rewrite HS, HN, HP. cbv [bind ret lift item]. cbn [default]. unfold id.
    rewrite L1, L2, L3. reflexivity.
  - unfold shows, scored, with_params. cbn. rewrite HP. cbn. unfold id.
    exists site, ce_name. eexists. exists cpu. eexists. eexists.
    split; [exact HS |]. split; [exact HN |]. split; [reflexivity |].
    split; [exact L1 |]. split; [exact L3 |]. split; [exact L2 | reflexivity].
Qed.

Lemma print_rows_total (items : list (string * QueueInfo)) (s : Sys Self) :
  Forall (fun kv => exists line, row kv s = (Return line, s) /\ shows kv line) items ->
  exists lines,
    print_rows items s = (Return tt, s, lines) /\ Forall2 shows items lines.
Proof.
  induction 1 as [| kv items (line & E & Sh) F (lines & E' & F2)]; simpl.
  - exists []. split; [reflexivity | constructor].
  - rewrite E, E'. exists (line :: lines). split; [reflexivity | constructor; assumption].
Qed.

Lemma Forall2_StronglySorted {A B : Type} (R : A -> B -> Prop)
    (P : A -> A -> Prop) (P' : B -> B -> Prop) (l : list A) (l' : list B) :
  (forall a b a' b', R a a' -> R b b' -> P a b -> P' a' b') ->
  Forall2 R l l' -> StronglySorted P l -> StronglySorted P' l'.
Proof.
  intros HP. induction 1 as [| a a' l l' Ha F IH]; intros S; [constructor |].
  inversion S as [| ? ? S' Fa]; subst. constructor; [auto |].
  clear IH S S'. induction F as [| b b' l l' Hb F IH]; [constructor |].
  inversion Fa; subst. constructor; eauto.
Qed.

Lemma shows_score_key (kv : string * QueueInfo) (line : Printed) :
  shows kv line ->
  exists score, row_score line = Some score /\ score_key kv = Return score.
Proof.
  intros (site & ce & params & cpu & load & score & _ & _ & HP & _ & _ & Hs & ->).
  exists score. split; [reflexivity |].
  unfold score_key. rewrite HP. simpl. rewrite Hs. reflexivity.
Qed.

Lemma mock_built_queues :
  Forall (fun kv => mock_queue (snd kv)) (queueDict (self Demo.mock_built)).
Proof.
  destruct (buildMockQueueDict_queues (Demo.mock_state [])) as (qd & E & F);
    [constructor |].
  unfold Demo.mock_built. rewrite E. exact F.
Qed.

(** A loop whose body only rewrites the object does the same. *)
Lemma for_each_writes_self {Self A : Type} (body : A -> @M Self unit) (l : list A) :
  (forall x me, exists me', forall g tr,
        body x {| self := me; rng := g; trace := tr |} =
        (Return tt, {| self := me'; rng := g; trace := tr |})) ->
  forall me, exists me', forall g tr,
      for_each body l {| self := me; rng := g; trace := tr |} =
      (Return tt, {| self := me'; rng := g; trace := tr |}).
Proof.
  intros Hb. induction l as [| x l IH]; intros me; simpl.
  - exists me. reflexivity.
  - destruct (Hb x me) as [me1 E1]. destruct (IH me1) as [me2 E2].
    exists me2. intros g tr. unfold bind. rewrite E1. apply E2.
Qed.

(** [_buildMockQueueDict] draws no random number and logs nothing: the
    dictionary it builds on a new director is always the same. *)
Lemma buildMockQueueDict_fresh (g : random.State) (tr : list Event) :
  _buildMockQueueDict {| self := __init__; rng := g; trace := tr |} =
  (Return tt,
   {| self := {| queueDict := queueDict (self Demo.mock_built) |};
      rng := g; trace := tr |}).
Proof.
  assert (W : exists me', forall g tr,
               _buildMockQueueDict {| self := __init__; rng := g; trace := tr |} =
               (Return tt, {| self := me'; rng := g; trace := tr |})).
  { unfold _buildMockQueueDict. apply for_each_writes_self.
    intros site me1. apply for_each_writes_self.
    intros ce_num me2. apply for_each_writes_self.
    intros q me3. eexists. intros g1 tr1.
    unfold set_queue. cbv [bind get_self set_self]. cbn [self rng trace]. reflexivity. }
  destruct W as [[qd] W]. rewrite W.
  unfold Demo.mock_built, Demo.mock_state. change {| queueDict := [] |} with __init__.
  rewrite W. reflexivity.
Qed.

Lemma mock_built_length : length (queueDict (self Demo.mock_built)) = 16%nat.
Proof. vm_compute. reflexivity. Qed.

(** Ranking, then printing, a dictionary of mock queues. *)
Lemma rank_and_print (ext : gmap string (gmap string Q))
    (qd : list (string * QueueInfo)) (s1 : Sys Self) :
  queueDict (self s1) = qd ->
  List.NoDup (keys qd) ->
  Forall (fun kv => mock_queue (snd kv)) qd ->
  exists s' lines,
    _computeQueueScores ext s1 = (Return tt, s') /\
    print_rows (queueDict (self s')) s' = (Return tt, s', lines) /\
    Forall2 shows (queueDict (self s')) lines /\
    Permutation (keys qd) (keys (queueDict (self s'))) /\
    length lines = length qd /\
    StronglySorted
      (fun a b => forall x y, row_score a = Some x -> row_score b = Some y -> (x <= y)%Q)
      lines.
Proof.
  intros Hqd ND MQ.
  destruct (computeQueueScores_cases qd (rng s1) ND)
    as [(snap & g' & evs & Hk & _ & Hrun) | (e & Hex & _)]; cycle 1.
  { exfalso. apply List.Exists_exists in Hex. destruct Hex as (kv & Hin & Hn).
    rewrite List.Forall_forall in MQ. exact (Hn (mock_queue_scorable _ (MQ kv Hin))). }
  specialize (Hrun ext s1 eq_refl Hqd).
  set (s2 := {| self := {| queueDict := ranking ext snap qd |};
                rng := g'; trace := trace s1 ++ evs |}) in *.
  destruct (print_rows_total (ranking ext snap qd) s2) as (lines & E & F2).
  { apply List.Forall_forall. intros kv Hin. unfold ranking in Hin.
    apply sort_stable_In in Hin. unfold scored_items in Hin.
    apply in_map_iff in Hin. destruct Hin as ([k qi] & Ekv & Hin). cbn [fst snd] in Ekv.
    assert (Hs : In k (keys snap)) by (rewrite Hk; apply (in_map fst _ _ Hin)).
    apply dict_get_keys in Hs. destruct Hs as [info Hs]. rewrite Hs in Ekv. subst kv.
    apply row_scored. rewrite List.Forall_forall in MQ. exact (MQ _ Hin). }
  exists s2, lines.
  split; [exact Hrun |].
  split; [exact E |].
  split; [exact F2 |].
  split.
  { unfold s2. cbn [self queueDict]. unfold ranking.
    rewrite <- (scored_items_keys ext snap qd) at 1.
    apply Permutation_map, sort_stable_Permutation. }
  split.
  { rewrite <- (Forall2_length _ _ _ F2). unfold ranking.
    rewrite <- (Permutation_length (sort_stable_Permutation _ _ _)).
    unfold scored_items. apply length_map. }
  refine (Forall2_StronglySorted shows
            (not_above (key_or 0%Q score_key) PyNum.Qltb) _ _ _ _ F2
            (sort_stable_sorted _ _ Qltb_asym Qltb_cotrans _)).
  intros a b a' b' Ha Hb Hab x y Hx Hy.
  destruct (shows_score_key _ _ Ha) as (x' & Ex & Kx).
  destruct (shows_score_key _ _ Hb) as (y' & Ey & Ky).
  assert (x' = x) by congruence. assert (y' = y) by congruence. subst.
  unfold not_above, key_or in Hab. rewrite Kx, Ky in Hab.
  apply Qltb_ge in Hab. exact Hab.
Qed.

End RunFacts.

(** X1. The mock computing element never raises and never reports an
    error: for every state of the generator it reports between 10 and 200
    running and between 0 and 50 waiting jobs out of 300, after two draws,
    so at least 50 slots are free and its load factor lies in
    [1/30, 5/6], below 1. *)
Theorem mock_ce_always_has_free_slots (ce_name : string) (g : random.State) :
  exists running waiting,
    let info := {| RunningJobs := running; WaitingJobs := waiting;
                   MaxTotalJobs := 300 |} in
    available (MockDirector.MockCE ce_name) g =
    (Return (AvailOK info (300 - (running + waiting))%Z),
     random.next (random.next g)) /\
    (10 <= running <= 200)%Z /\ (0 <= waiting <= 50)%Z /\
    (50 <= 300 - (running + waiting) <= 290)%Z /\
    (1 # 30 <= MockDirector.load_of info)%Q /\
    (MockDirector.load_of info <= 5 # 6)%Q.
Proof.
  destruct (MockCE_available ce_name g) as (running & waiting & E & B1 & B2).
  exists running, waiting. cbv zeta.
  split; [exact E |]. split; [exact B1 |]. split; [exact B2 |].
  split; [lia |].
  unfold MockDirector.load_of, MockDirector.spec_load_factor. cbn [RunningJobs WaitingJobs MaxTotalJobs].
  split.
  - apply Qle_shift_div_l; [reflexivity |].
    unfold Qle. simpl. lia.
  - apply Qle_shift_div_r; [reflexivity |].
    unfold Qle. simpl. lia.
Qed.

(** X2. [run] on a new director (empty queue dictionary) never raises,
    whatever the state of the generator: it prints the banner and then
    sixteen lines, one per queue of the final dictionary and in its
    order, each showing the site, CE name, CPUTime, LoadFactor and
    CompositeScore stored for that queue; the queues are those that
    [_buildMockQueueDict] builds, and the scores printed never decrease
    from one line to the next. *)
Theorem run_prints_the_ranking (s : Sys MockDirector.Self) :
  MockDirector.queueDict (self s) = [] ->
  exists s' lines,
    MockDirector.run s = (Return tt, s', MockDirector.Banner :: lines) /\
    Forall2 MockDirector.shows (MockDirector.queueDict (self s')) lines /\
    Permutation (keys (MockDirector.queueDict (self Demo.mock_built)))
                (keys (MockDirector.queueDict (self s'))) /\
    length lines = 16%nat /\
    StronglySorted
      (fun a b => forall x y,
           MockDirector.row_score a = Some x -> MockDirector.row_score b = Some y ->
           (x <= y)%Q)
      lines.
Proof.
  intros Hq. destruct s as [[qd] g tr]. simpl in Hq. subst qd.
  pose proof (buildMockQueueDict_fresh g tr) as B. unfold MockDirector.__init__ in B.
  destruct (rank_and_print MockDirector._mockExternalMetrics
              (MockDirector.queueDict (self Demo.mock_built))
              {| self := {| MockDirector.queueDict :=
                              MockDirector.queueDict (self Demo.mock_built) |};
                 rng := g; trace := tr |} eq_refl
              NoDup_mock_built mock_built_queues)
    as (s' & lines & R & P & F2 & Pm & Len & St).
  exists s', lines.
  split.
  { unfold MockDirector.run. unfold bind at 1. rewrite B. cbv zeta.
    rewrite R, P. reflexivity. }
  split; [exact F2 |].
  split; [exact Pm |].
  split; [rewrite Len; exact mock_built_length | exact St].
Qed.

Lemma run_prints_the_ranking_witness :
  MockDirector.queueDict (self (Demo.mock_state [])) = [] /\
  exists s' lines,
    MockDirector.run (Demo.mock_state []) =
    (Return tt, s', MockDirector.Banner :: lines) /\
    length lines = 16%nat.
Proof.
  split; [reflexivity |].
  destruct (run_prints_the_ranking (Demo.mock_state []) eq_refl)
    as (s' & lines & R & _ & _ & L & _).
  exists s', lines. split; [exact R | exact L].
Defined.

(** ** Variant B: defective queues and the external data *)

Section Defects.
Import MockDirector.

(** The keys a queue must have to be scored. *)
Lemma score_queue_missing_key ext (qinfo : QueueInfo) (s : Sys Self) :
  Site qinfo = None \/ CE qinfo = None \/
  default ∅ (ParametersDict qinfo) !! "CPUTime" = None ->
  exists key, score_queue ext qinfo s = (Raise (KeyError key), s) /\
              In key ["Site"; "CE"; "ParametersDict"; "CPUTime"]%string.
Proof.
  intros H. unfold score_queue.
  destruct (Site qinfo) as [site |]; cycle 1.
  { exists "Site"%string. split; [reflexivity | simpl; auto]. }
  destruct (CE qinfo) as [ce |]; cycle 1.
  { exists "CE"%string. split; [reflexivity | simpl; auto]. }
  destruct (ParametersDict qinfo) as [params |]; cycle 1.
  { exists "ParametersDict"%string. split; [reflexivity | simpl; auto]. }
  destruct H as [H | [H | H]]; try discriminate. simpl in H.
  exists "CPUTime"%string. split; [| simpl; auto].
  run_monad. rewrite H. reflexivity.
Qed.

Lemma score_loop_raises ext (items : list (string * QueueInfo)) :
  Exists (fun kv => Site (snd kv) = None \/ CE (snd kv) = None \/
                    default ∅ (ParametersDict (snd kv)) !! "CPUTime" = None) items ->
  forall s : Sys Self,
  exists e s', for_each (score_and_store ext) items s = (Raise e, s').
Proof.
  induction 1 as [kv items H | kv items _ IH]; intros s; simpl; unfold bind at 1.
  - destruct (score_queue_missing_key ext (snd kv) s H) as (key & E & _).
    unfold score_and_store, bind at 1. rewrite E. eauto.
  - destruct (score_and_store ext kv s) as [[[] | e] s1]; [apply IH | eauto].
Qed.

End Defects.

(** X3. One defective queue makes the whole Variant-B ranking fail: when
    some queue of the dictionary has no ["Site"], no ["CE"] or no
    ["CPUTime"] (or no parameter mapping at all), [_computeQueueScores]
    raises, for any external data and any answers of the computing
    elements; nothing is sorted, the dictionary keeps its queue names in
    the order it had. *)
Theorem defective_queue_aborts_ranking
    (ext : gmap string (gmap string Q)) (s : Sys MockDirector.Self) :
  List.NoDup (keys (MockDirector.queueDict (self s))) ->
  Exists (fun kv => Site (snd kv) = None \/ CE (snd kv) = None \/
                    default ∅ (ParametersDict (snd kv)) !! "CPUTime" = None)
         (MockDirector.queueDict (self s)) ->
  exists e s',
    MockDirector._computeQueueScores ext s = (Raise e, s') /\
    keys (MockDirector.queueDict (self s')) = keys (MockDirector.queueDict (self s)).
Proof.
  intros ND Hex.
  destruct (score_loop_raises ext _ Hex s) as (e & s1 & E).
  assert (R : MockDirector._computeQueueScores ext s = (Raise e, s1)).
  { unfold MockDirector._computeQueueScores, bind at 1. unfold get_self at 1.
    unfold bind at 1. rewrite E. reflexivity. }
  exists e, s1. split; [exact R |].
  destruct (computeQueueScores_cases _ (rng s) ND)
    as [(snap & g' & evs & _ & _ & Hrun) | (e' & _ & Hrun)].
  - rewrite (Hrun ext s eq_refl eq_refl) in R. discriminate.
  - destruct (Hrun ext s eq_refl eq_refl) as (s' & E' & Hk).
    rewrite E' in R. inversion R; subst. exact Hk.
Qed.

Lemma NoDup_with_bare_queue : List.NoDup (keys Demo.with_bare_queue).
Proof.
  apply NoDup_ListNoDup. apply (bool_decide_unpack _). vm_compute. exact I.
Qed.

Lemma defective_queue_aborts_ranking_witness :
  List.NoDup (keys Demo.with_bare_queue) /\
  exists e s',
    MockDirector._computeQueueScores Demo.ext_close
      (Demo.mock_state Demo.with_bare_queue) = (Raise e, s') /\
    keys (MockDirector.queueDict (self s')) = keys Demo.with_bare_queue.
Proof.
  split; [exact NoDup_with_bare_queue |].
  apply (defective_queue_aborts_ranking Demo.ext_close
           (Demo.mock_state Demo.with_bare_queue) NoDup_with_bare_queue).
  apply Exists_cons_hd. right. left. reflexivity.
Defined.

Section ExternalData.
Import MockDirector.

Lemma score_queue_reads_co2 ext ext' (qinfo : QueueInfo) (s : Sys Self) :
  (forall site, Site qinfo = Some site -> co2_of ext site = co2_of ext' site) ->
  score_queue ext qinfo s = score_queue ext' qinfo s.
Proof.
  intros H. unfold score_queue.
  destruct (Site qinfo) as [site |]; [| reflexivity].
  specialize (H site eq_refl). unfold co2_of in H.
  cbv [bind lift item]. cbv zeta. rewrite H. reflexivity.
Qed.

Lemma score_loop_reads_co2 ext ext' (items : list (string * QueueInfo)) :
  Forall (fun kv => forall site, Site (snd kv) = Some site ->
                                 co2_of ext site = co2_of ext' site) items ->
  forall s : Sys Self,
    for_each (score_and_store ext) items s = for_each (score_and_store ext') items s.
Proof.
  induction 1 as [| kv items H _ IH]; intros s; simpl; [reflexivity |].
  cbv [bind score_and_store].
  rewrite (score_queue_reads_co2 ext ext' _ s H).
  destruct (score_queue ext' (snd kv) s) as [[qi | e] s1]; [| reflexivity].
  destruct (set_queue (fst kv) qi s1) as [[[] | e] s2]; [apply IH | reflexivity].
Qed.

End ExternalData.

(** X4. Of the external data, [_computeQueueScores] uses nothing but
    the CO2 values of the sites of its own queues: two data sets that
    give those sites the same CO2 value (a missing one counting as 100.0)
    lead to the same outcome, the same dictionary and the same calls,
    whatever their efficiency values and their entries for other
    sites. *)
Theorem scores_read_only_co2
    (ext ext' : gmap string (gmap string Q)) (s : Sys MockDirector.Self) :
  Forall (fun kv => forall site, Site (snd kv) = Some site ->
                                 MockDirector.co2_of ext site = MockDirector.co2_of ext' site)
         (MockDirector.queueDict (self s)) ->
  MockDirector._computeQueueScores ext s = MockDirector._computeQueueScores ext' s.
Proof.
  intros H. unfold MockDirector._computeQueueScores.
  cbv [bind get_self].
  rewrite (score_loop_reads_co2 ext ext' _ H s). reflexivity.
Qed.

Lemma scores_read_only_co2_witness :
  Forall (fun kv => forall site, Site (snd kv) = Some site ->
                                 MockDirector.co2_of Demo.ext_close site =
                                 MockDirector.co2_of Demo.ext_verbose site)
         Demo.two_queues /\
  MockDirector._computeQueueScores Demo.ext_close (Demo.mock_state Demo.two_queues) =
  MockDirector._computeQueueScores Demo.ext_verbose (Demo.mock_state Demo.two_queues).
Proof.
  assert (F : Forall (fun kv => forall site, Site (snd kv) = Some site ->
                                   MockDirector.co2_of Demo.ext_close site =
                                   MockDirector.co2_of Demo.ext_verbose site)
                     Demo.two_queues).
  { repeat apply List.Forall_cons; try apply List.Forall_nil;
      intros site H; inversion H; subst; vm_compute; reflexivity. }
  split; [exact F |].
  exact (scores_read_only_co2 Demo.ext_close Demo.ext_verbose
           (Demo.mock_state Demo.two_queues) F).
Defined.

(** ** The green director: the guard, the frame and the whole method *)

Section Frame.
Import GreenSiteDirector.

Lemma with_queueCECache_same (me : Self) :
  with_queueCECache me (self_queueCECache me) = me.
Proof. destruct me; reflexivity. Qed.

(** The annotation loop writes the queue dictionary only. *)
Lemma annotate_loop_frame (items : list (string * QueueInfo)) :
  forall s : Sys Self,
  exists d g,
    for_each annotate_queue items s =
    (Return tt, {| self := with_queueDict (self s) d; rng := g; trace := trace s |}).
Proof.
  induction items as [| kv items IH]; intros s; simpl.
  - exists (queueDict (self s)), (rng s). unfold ret.
    rewrite with_queueDict_same. destruct s; reflexivity.
  - unfold bind at 1. unfold annotate_queue at 1.
    destruct (annotate_params_spec (default ∅ (ParametersDict (snd kv))) s)
      as (params' & g1 & E & _).
    unfold bind at 1. rewrite E.
    destruct (ParametersDict (snd kv)) as [params |].
    + unfold set_queue, set_queueDict. run_monad.
      destruct (IH {| self := with_queueDict (self s)
                                (dict_set (fst kv) (with_params (snd kv) params')
                                          (queueDict (self s)));
                      rng := g1; trace := trace s |}) as (d & g & E').
      rewrite E'. exists d, g. reflexivity.
    + unfold ret.
      destruct (IH {| self := self s; rng := g1; trace := trace s |}) as (d & g & E').
      rewrite E'. exists d, g. reflexivity.
Qed.

(** The [try] block writes the cache of computing elements and the queue
    dictionary only. *)
Lemma build_body_frame (dirac : Dirac) (gridEnv workingDir : string)
    (siteNames ces ceTypes tags : option (list string)) (s : Sys Self) :
  exists c d,
    self (snd (build_body dirac gridEnv workingDir siteNames ces ceTypes tags s)) =
    with_queueDict (with_queueCECache (self s) c) d.
Proof.
  assert (Same : self s = with_queueDict (with_queueCECache (self s)
                                            (self_queueCECache (self s)))
                                         (queueDict (self s))).
  { destruct s as [[]]; reflexivity. }
  unfold build_body. run_green.
  destruct (resourcesModule (self s)) as [rm |]; cbn; [| eauto].
  destruct (getQueues rm _) as [[value | msg] | e]; cbn; [| eauto | eauto].
  destruct (getQueuesResolved dirac _) as [[[resolved | msg] | e] cache]; cbn.
  - match goal with |- context [for_each annotate_queue resolved ?s0] =>
      destruct (annotate_loop_frame resolved s0) as (d & g & E) end.
    rewrite E. cbn.
    destruct (sorted pue_ci_key tuple_lt d) as [ranked | e]; cbn.
    + exists cache, (dict ranked). destruct s as [[]]; reflexivity.
    + exists cache, d. destruct s as [[]]; reflexivity.
  - exists cache, (queueDict (self s)). destruct s as [[]]; reflexivity.
  - exists cache, (queueDict (self s)). destruct s as [[]]; reflexivity.
Qed.

(** Without the resources module, the guard asks the loader first. *)
Lemma buildQueueDict_guard (dirac : Dirac)
    (siteNames ces ceTypes tags : option (list string)) (s : Sys Self) :
  resourcesModule (self s) = None ->
  let asked :=
    trace s ++
    [Log always (Text "Building queue dictionary (no VO argument)...");
     Log error (Text "resourcesModule missing, loading manually...");
     Call_loadModule "ConfigurationSystem.Client.Helpers.Resources"] in
  _buildQueueDict dirac siteNames ces ceTypes tags s =
  match loadModule dirac "ConfigurationSystem.Client.Helpers.Resources" with
  | Raise e => (Raise e, {| self := self s; rng := rng s; trace := asked |})
  | Return (S_ERROR msg) =>
      (Return (S_ERROR msg),
       {| self := self s; rng := rng s;
          trace := asked ++
                   [Log error (ErrorMessage "Cannot load Resources module:" msg)] |})
  | Return (S_OK rm) =>
      match build_body dirac (default ""%string (self_gridEnv (self s)))
                       (default "/tmp"%string (workingDirectory (self s)))
                       siteNames ces ceTypes tags
                       {| self := with_resourcesModule (self s) rm; rng := rng s;
                          trace := asked |} with
      | (Return r, s1) => (Return r, s1)
      | (Raise e, s1) => (Return (S_OK tt), moved s1 (rng s1) [swallowed e])
      end
  end.
Proof.
  intros Hrm asked. unfold _buildQueueDict.
  cbv [bind ret lift emit log with_rng get_self set_self try_except
       call_loadModule set_resourcesModule].
  cbn [self rng trace]. rewrite Hrm.
  destruct (loadModule dirac _) as [[rm | msg] | e]; cbn [self rng trace].
  - unfold asked. rewrite <- !app_assoc. cbn [app].
    destruct (build_body _ _ _ _ _ _ _ _) as [[r | e] s1]; reflexivity.
  - unfold asked. rewrite <- !app_assoc. reflexivity.
  - unfold asked. rewrite <- !app_assoc. reflexivity.
Qed.

End Frame.

(** X5. Whatever the collaborators answer, and whether it returns or
    raises, [_buildQueueDict] leaves the community, the grid environment,
    the working directory and the platform flag of the director as they
    were; the resources module changes only when it was missing and the
    loader delivered one, which is then stored. *)
Theorem buildQueueDict_writes_queues_only
    (dirac : Dirac) (siteNames ces ceTypes tags : option (list string))
    (s : Sys GreenSiteDirector.Self) :
  let s' := snd (GreenSiteDirector._buildQueueDict dirac siteNames ces ceTypes tags s) in
  GreenSiteDirector.vo (self s') = GreenSiteDirector.vo (self s) /\
  GreenSiteDirector.self_gridEnv (self s') = GreenSiteDirector.self_gridEnv (self s) /\
  GreenSiteDirector.workingDirectory (self s') =
  GreenSiteDirector.workingDirectory (self s) /\
  GreenSiteDirector.self_checkPlatform (self s') =
  GreenSiteDirector.self_checkPlatform (self s) /\
  (GreenSiteDirector.resourcesModule (self s') =
   GreenSiteDirector.resourcesModule (self s) \/
   (GreenSiteDirector.resourcesModule (self s) = None /\
    exists rm,
      loadModule dirac "ConfigurationSystem.Client.Helpers.Resources" = Return (S_OK rm) /\
      GreenSiteDirector.resourcesModule (self s') = Some rm)).
Proof.
  intros s'.
  destruct (GreenSiteDirector.resourcesModule (self s)) as [rm |] eqn:Hrm.
  - pose proof (buildQueueDict_try dirac siteNames ces ceTypes tags s rm Hrm) as T.
    unfold GreenSiteDirector.body in T.
    destruct (build_body_frame dirac
                (default ""%string (GreenSiteDirector.self_gridEnv (self s)))
                (default "/tmp"%string (GreenSiteDirector.workingDirectory (self s)))
                siteNames ces ceTypes tags (GreenSiteDirector.started s)) as (c & d & F).
    destruct (GreenSiteDirector.build_body _ _ _ _ _ _ _ _) as [[r | e] s1];
      subst s'; rewrite T; cbn [snd self moved] in *; rewrite F; cbn;
      rewrite Hrm; auto 6.
  - pose proof (buildQueueDict_guard dirac siteNames ces ceTypes tags s Hrm) as T.
    cbv zeta in T.
    destruct (loadModule dirac _) as [[rm | msg] | e] eqn:EL.
    + match type of T with context [GreenSiteDirector.build_body ?a ?b ?c ?d ?e ?f ?g ?s0] =>
        destruct (build_body_frame a b c d e f g s0) as (c0 & d0 & F) end.
      destruct (GreenSiteDirector.build_body _ _ _ _ _ _ _ _) as [[r | e] s1];
        subst s'; rewrite T; cbn [snd self moved] in *; rewrite F; cbn;
        (repeat split; try reflexivity); right; split; eauto.
    + subst s'. rewrite T. cbn. rewrite Hrm. auto 6.
    + subst s'. rewrite T. cbn. rewrite Hrm. auto 6.
Qed.

(** X6. A director without resources module asks the loader before
    anything else. When the loader reports an error, [_buildQueueDict]
    returns that error: the catalog is not asked and the object is
    unchanged. When the loader raises, the exception leaves the method,
    since the guard stands before the [try] block. When the loader
    delivers a module, the method does not raise and the module is
    stored in the director. *)
Theorem buildQueueDict_without_module
    (dirac : Dirac) (siteNames ces ceTypes tags : option (list string))
    (s : Sys GreenSiteDirector.Self) :
  GreenSiteDirector.resourcesModule (self s) = None ->
  let run := GreenSiteDirector._buildQueueDict dirac siteNames ces ceTypes tags s in
  let loader := loadModule dirac "ConfigurationSystem.Client.Helpers.Resources" in
  let asked :=
    [Log always (Text "Building queue dictionary (no VO argument)...");
     Log error (Text "resourcesModule missing, loading manually...");
     Call_loadModule "ConfigurationSystem.Client.Helpers.Resources"] in
  (forall msg,
      loader = Return (S_ERROR msg) ->
      run = (Return (S_ERROR msg),
             {| self := self s; rng := rng s;
                trace := trace s ++ asked ++
                         [Log error (ErrorMessage "Cannot load Resources module:" msg)] |})) /\
  (forall e,
      loader = Raise e ->
      run = (Raise e, {| self := self s; rng := rng s; trace := trace s ++ asked |})) /\
  (forall rm,
      loader = Return (S_OK rm) ->
      exists r s',
        run = (Return r, s') /\
        GreenSiteDirector.resourcesModule (self s') = Some rm).
Proof.
  intros Hrm run loader asked.
  pose proof (buildQueueDict_guard dirac siteNames ces ceTypes tags s Hrm) as T.
  cbv zeta in T. fold run loader in T.
  split; [| split].
  - intros msg E. rewrite T, E. unfold asked. rewrite <- !app_assoc. reflexivity.
  - intros e E. rewrite T, E. reflexivity.
  - intros rm E. rewrite T, E.
    match goal with |- context [GreenSiteDirector.build_body ?a ?b ?c ?d ?e ?f ?g ?s0] =>
      destruct (build_body_frame a b c d e f g s0) as (c0 & d0 & F) end.
    destruct (GreenSiteDirector.build_body _ _ _ _ _ _ _ _) as [[r | e] s1];
      eexists; eexists; (split; [reflexivity |]);
      cbn [snd self moved] in *; rewrite F; reflexivity.
Qed.

Lemma buildQueueDict_without_module_witness :
  GreenSiteDirector.resourcesModule (self (Demo.green_bare Demo.two_queues)) = None /\
  GreenSiteDirector._buildQueueDict
    (Demo.dirac_loading (Return (S_ERROR "no such module")) (Return (S_OK Demo.sites))
                        (Return (S_OK [])))
    None None None None (Demo.green_bare Demo.two_queues) =
  (Return (S_ERROR "no such module"),
   {| self := self (Demo.green_bare Demo.two_queues); rng := Demo.g0;
      trace :=
        [Log always (Text "Building queue dictionary (no VO argument)...");
         Log error (Text "resourcesModule missing, loading manually...");
         Call_loadModule "ConfigurationSystem.Client.Helpers.Resources";
         Log error (ErrorMessage "Cannot load Resources module:" "no such module")] |}).
Proof.
  split; [reflexivity |].
  exact (proj1 (buildQueueDict_without_module
                  (Demo.dirac_loading (Return (S_ERROR "no such module"))
                                      (Return (S_OK Demo.sites)) (Return (S_OK [])))
                  None None None None (Demo.green_bare Demo.two_queues) eq_refl)
               "no such module" eq_refl).
Defined.

Section Complete.
Import GreenSiteDirector.




End Complete.







(** ** The two cycles: early exits, probes and stale state *)

(** X9. When the catalog answers and the resolution of the queues
    returns an error, the cycle stops there: [_buildQueueDict] of the
    green director and [execute] of the agent return that same error and
    keep the queue dictionary they had; nothing is annotated, sorted or
    probed. The only change to the object is the cache of computing
    elements, which is what the resolution left (for the agent, built
    from an empty cache). *)
Theorem resolution_error_short_circuits
    (dirac : Dirac) (siteNames ces ceTypes tags : option (list string))
    (sg : Sys GreenSiteDirector.Self) (rm : ResourcesModule)
    (sa : Sys SiteInfoAgent.Self) (value : SiteDict)
    (cache : gmap string CEHandle) (msg : string) :
  (GreenSiteDirector.resourcesModule (self sg) = Some rm ->
   getQueues rm (GreenSiteDirector.catalog_args siteNames ces ceTypes tags (self sg))
   = Return (S_OK value) ->
   getQueuesResolved dirac (GreenSiteDirector.resolve_args (self sg) value)
   = (Return (S_ERROR msg), cache) ->
   GreenSiteDirector._buildQueueDict dirac siteNames ces ceTypes tags sg =
   (Return (S_ERROR msg),
    {| self := GreenSiteDirector.with_queueCECache (self sg) cache; rng := rng sg;
       trace := trace sg ++
                [Log always (Text "Building queue dictionary (no VO argument)...");
                 Call_getQueues (GreenSiteDirector.vo (self sg));
                 Call_getQueuesResolved;
                 Log error (ErrorMessage "Failed to resolve queues:" msg)] |})) /\
  (getQueues (Resources dirac) (SiteInfoAgent.catalog_args (self sa))
   = Return (S_OK value) ->
   value <> ∅ ->
   getQueuesResolved dirac (SiteInfoAgent.resolve_args value)
   = (Return (S_ERROR msg), cache) ->
   SiteInfoAgent.execute dirac sa =
   (Return (S_ERROR msg),
    {| self := SiteInfoAgent.with_queueCECache (self sa) cache; rng := rng sa;
       trace := trace sa ++
                [Log always (Text "=== [SiteInfoAgent] Cycle started ===");
                 Call_getQueues (default ""%string (SiteInfoAgent.vo (self sa)));
                 Call_getQueuesResolved;
                 Log error (ErrorMessage "Failed to resolve CE objects" msg)] |})).
Proof.
  split.
  - intros Hrm Hq Hr.
    rewrite (buildQueueDict_try dirac siteNames ces ceTypes tags sg rm Hrm).
    unfold GreenSiteDirector.body, GreenSiteDirector.started,
      GreenSiteDirector.catalog_args, GreenSiteDirector.resolve_args in *.
    run_green. rewrite Hrm. cbn. rewrite Hq. cbn. rewrite Hr. cbn.
    rewrite <- !app_assoc. reflexivity.
  - intros Hq Hne Hr.
    unfold SiteInfoAgent.catalog_args, SiteInfoAgent.resolve_args in *. run_agent.
    rewrite Hq. cbn. rewrite bool_decide_eq_false_2 by exact Hne. cbn.
    rewrite Hr. cbn. rewrite <- !app_assoc. reflexivity.
Qed.

Lemma resolution_error_short_circuits_witness :
  fst (GreenSiteDirector._buildQueueDict
         (Demo.dirac (Return (S_OK Demo.sites)) (Return (S_ERROR "no CE found")) "" ∅)
         None None None None
         (Demo.green_state (Demo.catalog (Return (S_OK Demo.sites))) Demo.two_queues))
  = Return (S_ERROR "no CE found") /\
  SiteInfoAgent.execute
    (Demo.dirac (Return (S_OK Demo.sites)) (Return (S_ERROR "no CE found")) "" ∅)
    Demo.agent_stale
  = (Return (S_ERROR "no CE found"),
     {| self := SiteInfoAgent.with_queueCECache (self Demo.agent_stale) ∅;
        rng := Demo.g0;
        trace := trace Demo.agent_stale ++
                 [Log always (Text "=== [SiteInfoAgent] Cycle started ===");
                  Call_getQueues "";
                  Call_getQueuesResolved;
                  Log error (ErrorMessage "Failed to resolve CE objects" "no CE found")] |}).
Proof.
  destruct (resolution_error_short_circuits
              (Demo.dirac (Return (S_OK Demo.sites)) (Return (S_ERROR "no CE found")) "" ∅)
              None None None None
              (Demo.green_state (Demo.catalog (Return (S_OK Demo.sites))) Demo.two_queues)
              (Demo.catalog (Return (S_OK Demo.sites)))
              Demo.agent_stale Demo.sites ∅ "no CE found") as [G A].
  rewrite (G eq_refl eq_refl eq_refl), (A eq_refl sites_not_empty eq_refl).
  split; reflexivity.
Defined.

(** X10. When the catalog knows no site for the community (an empty
    mapping), [execute] of the agent logs a warning and returns [S_OK]
    without resolving or probing anything; the object is untouched, so
    the queue dictionary and the cache of an earlier cycle stay in
    place. *)
Theorem empty_catalog_ends_the_cycle (dirac : Dirac) (s : Sys SiteInfoAgent.Self) :
  getQueues (Resources dirac) (SiteInfoAgent.catalog_args (self s)) = Return (S_OK ∅) ->
  SiteInfoAgent.execute dirac s =
  (Return (S_OK tt),
   {| self := self s; rng := rng s;
      trace := trace s ++
               [Log always (Text "=== [SiteInfoAgent] Cycle started ===");
                Call_getQueues (default ""%string (SiteInfoAgent.vo (self s)));
                Log warn (Text "No sites or queues found for this VO")] |}).
Proof.
  intros Hq. unfold SiteInfoAgent.catalog_args in Hq. run_agent.
  rewrite Hq. cbn. rewrite bool_decide_eq_true_2 by reflexivity. cbn.
  rewrite <- !app_assoc. reflexivity.
Qed.

Lemma empty_catalog_ends_the_cycle_witness :
  getQueues (Resources (Demo.dirac (Return (S_OK ∅)) (Return (S_OK [])) "" ∅))
            (SiteInfoAgent.catalog_args (self Demo.agent_stale))
  = Return (S_OK ∅) /\
  fst (SiteInfoAgent.execute (Demo.dirac (Return (S_OK ∅)) (Return (S_OK [])) "" ∅)
                             Demo.agent_stale)
  = Return (S_OK tt) /\
  SiteInfoAgent.queueDict
    (self (snd (SiteInfoAgent.execute
                  (Demo.dirac (Return (S_OK ∅)) (Return (S_OK [])) "" ∅)
                  Demo.agent_stale)))
  = Demo.two_queues.
Proof.
  split; [reflexivity |].
  rewrite (empty_catalog_ends_the_cycle
             (Demo.dirac (Return (S_OK ∅)) (Return (S_OK [])) "" ∅)
             Demo.agent_stale eq_refl).
  split; reflexivity.
Defined.

(** X11. [execute] of the agent has no handler around its two calls to
    DIRAC: an exception raised by the catalog or by the resolution of
    the queues leaves the method (unlike an exception of a probe, and
    unlike [_buildQueueDict] of the green director). The cycle ends at
    the call, and the queue dictionary is the one of the cycle before. *)
Theorem agent_lets_exceptions_through
    (dirac : Dirac) (s : Sys SiteInfoAgent.Self) (e : exn) :
  (getQueues (Resources dirac) (SiteInfoAgent.catalog_args (self s)) = Raise e ->
   SiteInfoAgent.execute dirac s =
   (Raise e,
    {| self := self s; rng := rng s;
       trace := trace s ++
                [Log always (Text "=== [SiteInfoAgent] Cycle started ===");
                 Call_getQueues (default ""%string (SiteInfoAgent.vo (self s)))] |})) /\
  (forall value cache,
      getQueues (Resources dirac) (SiteInfoAgent.catalog_args (self s))
      = Return (S_OK value) ->
      value <> ∅ ->
      getQueuesResolved dirac (SiteInfoAgent.resolve_args value) = (Raise e, cache) ->
      SiteInfoAgent.execute dirac s =
      (Raise e,
       {| self := SiteInfoAgent.with_queueCECache (self s) cache; rng := rng s;
          trace := trace s ++
                   [Log always (Text "=== [SiteInfoAgent] Cycle started ===");
                    Call_getQueues (default ""%string (SiteInfoAgent.vo (self s)));
                    Call_getQueuesResolved] |})).
Proof.
  split.
  - intros Hq. unfold SiteInfoAgent.catalog_args in Hq. run_agent.
    rewrite Hq. cbn. rewrite <- !app_assoc. reflexivity.
  - intros value cache Hq Hne Hr.
    unfold SiteInfoAgent.catalog_args, SiteInfoAgent.resolve_args in *. run_agent.
    rewrite Hq. cbn. rewrite bool_decide_eq_false_2 by exact Hne. cbn.
    rewrite Hr. cbn. rewrite <- !app_assoc. reflexivity.
Qed.

Lemma agent_lets_exceptions_through_witness :
  getQueues (Resources (Demo.dirac (Raise (Exception "catalog unreachable"))
                                   (Return (S_OK [])) "" ∅))
            (SiteInfoAgent.catalog_args (self Demo.agent_state))
  = Raise (Exception "catalog unreachable") /\
  fst (SiteInfoAgent.execute
         (Demo.dirac (Raise (Exception "catalog unreachable")) (Return (S_OK [])) "" ∅)
         Demo.agent_state)
  = Raise (Exception "catalog unreachable").
Proof.
  split; [reflexivity |].
  rewrite (proj1 (agent_lets_exceptions_through
                    (Demo.dirac (Raise (Exception "catalog unreachable"))
                                (Return (S_OK [])) "" ∅)
                    Demo.agent_state (Exception "catalog unreachable")) eq_refl).
  reflexivity.
Defined.

Section Probes.
Import SiteInfoAgent.

Lemma probes_app (l1 l2 : list Event) : probes (l1 ++ l2) = probes l1 ++ probes l2.
Proof. unfold probes. apply omap_app. Qed.

Lemma probes_queue_lines (kv : string * QueueInfo) (g : random.State) :
  probes (fst (queue_lines kv g)) =
  match CE (snd kv) with
  | Some ce => [name ce]
  | None => []
  end.
Proof.
  unfold queue_lines. destruct (CE (snd kv)) as [ce |].
  - destruct (available ce g) as [answer g']. cbn [fst].
    rewrite probes_app. cbn.
    destruct answer as [[info v | msg] | e]; reflexivity.
  - reflexivity.
Qed.

Lemma probes_cycle_lines (value : list (string * QueueInfo)) :
  forall g, probes (fst (cycle_lines value g)) = ce_names value.
Proof.
  induction value as [| kv value IH]; intros g; [reflexivity |].
  simpl. pose proof (probes_queue_lines kv g) as H.
  destruct (queue_lines kv g) as [l1 g1]. specialize (IH g1).
  destruct (cycle_lines value g1) as [l2 g2]. cbn [fst] in *.
  rewrite probes_app, H, IH. unfold ce_names. cbn [omap list_omap].
  destruct (CE (snd kv)); reflexivity.
Qed.

End Probes.

(** X12. In a cycle that gets its queues, the agent calls [available]
    exactly once for each queue that has a CE object, in the order of
    the queue dictionary, and never for a queue without one: the calls
    in the trace of the cycle are the computing elements of the resolved
    queues, in order. *)
Theorem one_probe_per_queue
    (dirac : Dirac) (s : Sys SiteInfoAgent.Self) (siteDict : SiteDict)
    (cache : gmap string CEHandle) (value : list (string * QueueInfo)) :
  getQueues (Resources dirac) (SiteInfoAgent.catalog_args (self s))
  = Return (S_OK siteDict) ->
  siteDict <> ∅ ->
  getQueuesResolved dirac (SiteInfoAgent.resolve_args siteDict)
  = (Return (S_OK value), cache) ->
  exists evs,
    trace (snd (SiteInfoAgent.execute dirac s)) = trace s ++ evs /\
    SiteInfoAgent.probes evs = SiteInfoAgent.ce_names value.
Proof.
  intros Hq Hne Hr.
  eexists. split.
  - unfold SiteInfoAgent.catalog_args, SiteInfoAgent.resolve_args in *. run_agent.
    rewrite Hq. cbn. rewrite bool_decide_eq_false_2 by exact Hne. cbn.
    rewrite Hr. cbn. rewrite report_loop. unfold moved. cbn.
    rewrite <- !app_assoc. reflexivity.
  - cbn [app]. change (?a :: ?b :: ?c :: ?l) with ([a; b; c] ++ l).
    rewrite !probes_app. cbn. rewrite app_nil_r. apply probes_cycle_lines.
Qed.

Lemma one_probe_per_queue_witness :
  exists evs,
    trace (snd (SiteInfoAgent.execute
                  (Demo.dirac (Return (S_OK Demo.sites))
                              (Return (S_OK Demo.three_queues)) "" ∅)
                  Demo.agent_state)) = trace Demo.agent_state ++ evs /\
    SiteInfoAgent.probes evs = ["ce.a"; "ce.b"; "ce.c"]%string.
Proof.
  exact (one_probe_per_queue
           (Demo.dirac (Return (S_OK Demo.sites)) (Return (S_OK Demo.three_queues)) "" ∅)
           Demo.agent_state Demo.sites ∅ Demo.three_queues
           eq_refl sites_not_empty eq_refl).
Defined.

(** X13. A cycle of the agent never uses what an earlier cycle left in
    the object: two agents with the same community and the same state of
    the outside get the same result and log the same lines and calls,
    whatever their queue dictionaries and their caches of computing
    elements. *)
Theorem cycle_depends_on_vo_only
    (dirac : Dirac) (s1 s2 : Sys SiteInfoAgent.Self) :
  SiteInfoAgent.vo (self s1) = SiteInfoAgent.vo (self s2) ->
  rng s1 = rng s2 ->
  fst (SiteInfoAgent.execute dirac s1) = fst (SiteInfoAgent.execute dirac s2) /\
  rng (snd (SiteInfoAgent.execute dirac s1)) = rng (snd (SiteInfoAgent.execute dirac s2)) /\
  exists evs,
    trace (snd (SiteInfoAgent.execute dirac s1)) = trace s1 ++ evs /\
    trace (snd (SiteInfoAgent.execute dirac s2)) = trace s2 ++ evs.
Proof.
  destruct s1 as [[vo1 qd1 c1] g1 t1], s2 as [[vo2 qd2 c2] g2 t2].
  cbn [self rng SiteInfoAgent.vo]. intros <- <-.
  run_agent.
  destruct (getQueues (Resources dirac) _) as [[siteDict | msg] | e]; cbn.
  - destruct (bool_decide (siteDict = ∅)); cbn.
    + split; [reflexivity |]. split; [reflexivity |].
      eexists. rewrite <- !app_assoc. split; reflexivity.
    + destruct (getQueuesResolved dirac _) as [[[value | msg] | e] cache]; cbn.
      * rewrite !report_loop. unfold moved. cbn.
        split; [reflexivity |]. split; [reflexivity |].
        eexists. rewrite <- !app_assoc. split; reflexivity.
      * split; [reflexivity |]. split; [reflexivity |].
        eexists. rewrite <- !app_assoc. split; reflexivity.
      * split; [reflexivity |]. split; [reflexivity |].
        eexists. rewrite <- !app_assoc. split; reflexivity.
  - split; [reflexivity |]. split; [reflexivity |].
    eexists. rewrite <- !app_assoc. split; reflexivity.
  - split; [reflexivity |]. split; [reflexivity |].
    eexists. rewrite <- !app_assoc. split; reflexivity.
Qed.

Lemma cycle_depends_on_vo_only_witness :
  SiteInfoAgent.vo (self Demo.agent_state) = SiteInfoAgent.vo (self Demo.agent_stale) /\
  fst (SiteInfoAgent.execute
         (Demo.dirac (Return (S_OK Demo.sites)) (Return (S_OK Demo.three_queues)) "" ∅)
         Demo.agent_state)
  = fst (SiteInfoAgent.execute
           (Demo.dirac (Return (S_OK Demo.sites)) (Return (S_OK Demo.three_queues)) "" ∅)
           Demo.agent_stale).
Proof.
  split; [reflexivity |].
  exact (proj1 (cycle_depends_on_vo_only
                  (Demo.dirac (Return (S_OK Demo.sites))
                              (Return (S_OK Demo.three_queues)) "" ∅)
                  Demo.agent_state Demo.agent_stale eq_refl eq_refl)).
Defined.

(** ** The green director: constructor and wrappers *)

Section Wrappers.
Import GreenSiteDirector.

(** The display loop only logs. *)
Lemma show_queues_spec (show : Q -> string) (items : list (string * QueueInfo)) :
  forall (i : nat) (s : Sys Self),
    show_queues show i items s =
    (Return tt, moved s (rng s) (queue_lines show i items)).
Proof.
  induction items as [| kv items IH]; intros i s; simpl.
  - unfold ret, moved. rewrite app_nil_r. destruct s; reflexivity.
  - cbv [bind log emit]. rewrite IH. unfold moved. cbn [self rng trace].
    rewrite <- app_assoc. reflexivity.
Qed.

Lemma queue_lines_length (show : Q -> string) (items : list (string * QueueInfo)) :
  forall i, length (queue_lines show i items) = length items.
Proof. induction items as [| kv items IH]; intros i; simpl; [| rewrite IH]; reflexivity. Qed.

Lemma queue_lines_lookup (show : Q -> string) (items : list (string * QueueInfo)) :
  forall (j i : nat) (kv : string * QueueInfo),
    items !! i = Some kv ->
    queue_lines show j items !! i =
    Some (Log always (Text (queue_line show (j + i) (snd kv)))).
Proof.
  induction items as [| kv0 items IH]; intros j i kv H; [discriminate |].
  destruct i as [| i]; simpl in *.
  - inversion H; subst. rewrite Nat.add_0_r. reflexivity.
  - rewrite (IH (S j) i kv H). rewrite Nat.add_succ_r. reflexivity.
Qed.

End Wrappers.

(** X14. [initialize] and [execute] of the green director always run
    the method of the parent class, exactly once, on the unchanged
    object, and hand its result through as it is: [S_OK], [S_ERROR] with
    the same message, or the exception; they only add log lines. This
    holds for [execute] also when the queue dictionary is empty, where the
    warning announces that the submission cycle is skipped. Before the
    parent runs, [execute] shows the queues without raising, whatever
    keys they lack: one line per queue, in the order of the dictionary
    and numbered from 1. *)
Theorem wrappers_always_run_the_parent
    (show : Q -> string)
    (super_initialize super_execute : @M GreenSiteDirector.Self (Result unit))
    (s : Sys GreenSiteDirector.Self) :
  let closing (succeeded failed : string) (r : Result unit) :=
    match r with
    | S_OK _ => Log always (Text succeeded)
    | S_ERROR msg => Log error (ErrorMessage failed msg)
    end in
  let wrapped (parent : @M GreenSiteDirector.Self (Result unit))
              (before : list Event) (succeeded failed : string) :=
    match parent {| self := self s; rng := rng s; trace := trace s ++ before |} with
    | (Return r, s') =>
        (Return r,
         {| self := self s'; rng := rng s';
            trace := trace s' ++ [closing succeeded failed r] |})
    | (Raise e, s') => (Raise e, s')
    end in
  let shown := GreenSiteDirector.display show (GreenSiteDirector.queueDict (self s)) in
  GreenSiteDirector.initialize super_initialize s =
  wrapped super_initialize
    [Log always (Text "🟢 Initializing GreenSiteDirector: energy-aware pilot scheduling activated 🌿")]
    "✅ [GreenSiteDirector] Parent initialization complete."
    "Failed during parent initialization:" /\
  GreenSiteDirector.execute show super_execute s =
  wrapped super_execute shown
    "🌱 [GreenSiteDirector] Execution cycle completed successfully."
    "🚫 [GreenSiteDirector] Error in parent execute:" /\
  (GreenSiteDirector.queueDict (self s) = [] ->
   shown =
   [Log always (Text "🌿 [GreenSiteDirector] Starting execution cycle...");
    Log warn (Text "No queue dictionary loaded — skipping submission cycle.")]) /\
  (GreenSiteDirector.queueDict (self s) <> [] ->
   length shown = (2 + length (GreenSiteDirector.queueDict (self s)))%nat /\
   forall i kv,
     GreenSiteDirector.queueDict (self s) !! i = Some kv ->
     shown !! (2 + i)%nat =
     Some (Log always (Text (GreenSiteDirector.queue_line show (S i) (snd kv))))).
Proof.
  intros closing wrapped shown. split; [| split; [| split]].
  - unfold GreenSiteDirector.initialize, wrapped.
    cbv [bind ret log emit]. cbn [self rng trace].
    destruct (super_initialize _) as [[[v | msg] | e] s']; reflexivity.
  - unfold GreenSiteDirector.execute, wrapped, shown, GreenSiteDirector.display.
    destruct (GreenSiteDirector.queueDict (self s)) as [| kv rest] eqn:Eq.
    + cbv [bind ret log emit get_self]. cbn [self rng trace]. rewrite Eq.
      cbn [self rng trace]. rewrite <- !app_assoc. cbn [app].
      destruct (super_execute _) as [[[v | msg] | e] s']; reflexivity.
    + cbv [bind ret log emit get_self]. cbn [self rng trace]. rewrite Eq.
      rewrite show_queues_spec. unfold moved at 1. cbn [self rng trace].
      rewrite <- !app_assoc. cbn [app].
      destruct (super_execute _) as [[[v | msg] | e] s']; reflexivity.
  - intros Eq. unfold shown. rewrite Eq. reflexivity.
  - intros NE. unfold shown, GreenSiteDirector.display.
    destruct (GreenSiteDirector.queueDict (self s)) as [| kv rest]; [contradiction |].
    split.
    + cbn [length]. rewrite queue_lines_length. reflexivity.
    + intros i kv' H. cbn [Nat.add]. cbn [lookup list_lookup].
      apply (queue_lines_lookup show (kv :: rest) 1 i kv' H).
Qed.

(** The line of a queue that has a site and nothing else. *)
Example queue_line_example :
  GreenSiteDirector.queue_line (fun _ => "1.5"%string) 3 Demo.bare_queue =
  "   03. D.x                       | CE: UnknownCE                 | PUE: ? | CI: ?"%string.
Proof. vm_compute. reflexivity. Qed.

Section Constructor.
Import GreenSiteDirector.

Lemma buildQueueDict_with_module
    (dirac : Dirac) (siteNames ces ceTypes tags : option (list string))
    (s : Sys Self) (rm : ResourcesModule) :
  resourcesModule (self s) = Some rm ->
  exists r s', _buildQueueDict dirac siteNames ces ceTypes tags s = (Return r, s').
Proof.
  intros Hrm. rewrite (buildQueueDict_try dirac siteNames ces ceTypes tags s rm Hrm).
  destruct (body dirac siteNames ces ceTypes tags s) as [[r | e] s1]; eauto.
Qed.

End Constructor.

(** X15. The constructor fails only when the resources module is
    missing and the loader raises. A director that it has constructed
    has its grid environment and its working directory set; an inherited
    resources module is kept and the loader is not asked. On such a
    director [_buildQueueDict] never raises, also when the constructor
    could not load the module: the loader is asked again, and gives the
    answer it gave before. *)
Theorem constructed_director_never_raises
    (dirac : Dirac) (parent : GreenSiteDirector.Inherited)
    (siteNames ces ceTypes tags : option (list string))
    (s0 : Sys GreenSiteDirector.Self) :
  match GreenSiteDirector.__init__ dirac parent s0 with
  | (Return _, s1) =>
      is_Some (GreenSiteDirector.self_gridEnv (self s1)) /\
      is_Some (GreenSiteDirector.workingDirectory (self s1)) /\
      (is_Some (GreenSiteDirector.inherited_resourcesModule parent) ->
       GreenSiteDirector.resourcesModule (self s1) =
       GreenSiteDirector.inherited_resourcesModule parent /\
       forall name, In (Call_loadModule name) (trace s1) ->
                    In (Call_loadModule name) (trace s0)) /\
      exists r s2,
        GreenSiteDirector._buildQueueDict dirac siteNames ces ceTypes tags s1
        = (Return r, s2)
  | (Raise e, _) =>
      GreenSiteDirector.inherited_resourcesModule parent = None /\
      loadModule dirac "ConfigurationSystem.Client.Helpers.Resources" = Raise e
  end.
Proof.
  unfold GreenSiteDirector.__init__.
  cbv [bind ret lift emit log get_self set_self GreenSiteDirector.call_loadModule
       GreenSiteDirector.set_resourcesModule].
  cbn [self rng trace GreenSiteDirector.safe_defaults GreenSiteDirector.resourcesModule].
  destruct (GreenSiteDirector.inherited_resourcesModule parent) as [rm |] eqn:Hin.
  - cbn [self]. split; [eexists; reflexivity |]. split; [eexists; reflexivity |].
    split.
    + intros _. split; [cbn; exact Hin |].
      intros name H. cbn [trace] in H. apply in_app_iff in H.
      destruct H as [H | [H | []]]; [exact H | discriminate].
    + apply (buildQueueDict_with_module dirac siteNames ces ceTypes tags _ rm).
      cbn. exact Hin.
  - destruct (loadModule dirac _) as [[rm | msg] | e] eqn:EL; cbn [self rng trace].
    + split; [eexists; reflexivity |]. split; [eexists; reflexivity |].
      split; [intros [? H]; discriminate |].
      apply (buildQueueDict_with_module dirac siteNames ces ceTypes tags _ rm).
      reflexivity.
    + split; [eexists; reflexivity |]. split; [eexists; reflexivity |].
      split; [intros [? H]; discriminate |].
      match goal with |- context [GreenSiteDirector._buildQueueDict _ _ _ _ _ ?s1] =>
        pose proof (buildQueueDict_guard dirac siteNames ces ceTypes tags s1 Hin) as G end.
      cbv zeta in G. rewrite EL in G. rewrite G. eauto.
    + split; reflexivity.
Qed.

(** ** Variant B: the effect of rounding *)

Section RoundingError.
Import PyNum.



End RoundingError.


